(** * Remove Duplicate Materials: a shallow embedding of
    [remove_duplicate_materials.py] and the properties of its comparison,
    grouping and slot-removal passes.

    Conventions of the embedding.
    - A material is an opaque handle (a Blender ID pointer).  Python's
      [mat1 == mat2] and the hashing used by [set] and [dict] on materials
      is equality of handles.  Attributes are read through the scene, a
      total map from handles to attribute bundles.
    - The float attributes that the comparator tests with
      [abs(x - y) > 0.001] are binary64 values ([PrimFloat.float]), and the
      subtraction, [abs] and [>] of that test are the IEEE 754 operations,
      so the literal [0.001] is the double nearest to one thousandth.
      Node positions, node colours and socket defaults, which the code only
      tests for equality, are kept as exact rationals.
    - An attribute read inside a [try ... except AttributeError] block, or
      probed with [hasattr], is an [option] field.  [use_nodes], [node_tree]
      and [name] are read outside any guard and are plain fields.
    - [print] calls only write to the console and are left out. *)

From Stdlib Require Import QArith Floats.
Set Warnings "-inexact-float".
From stdpp Require Import sorting functions gmap strings list.


(** ** Data model *)

Definition material := nat.

(** [diffuse_color] is turned into a list when it is iterable and wrapped
    in a one-element list otherwise (lines 56-57). *)
Inductive color :=
  | ColorVec (components : list float)
  | ColorScalar (value : float).

Definition color_list (c : color) : list float :=
  match c with
  | ColorVec l => l
  | ColorScalar q => [q]
  end.

Record Socket := mkSocket {
  socket_name : string;
  default_value : option (list Q)
}.

Record Node := mkNode {
  node_type : string;
  node_location : list Q;
  node_name : option string;
  node_color : option (list Q);
  node_hide : option bool;
  node_inputs : list Socket;
  node_image : option (option nat);
  node_interpolation : option string
}.

Record Link := mkLink {
  from_node : Node;
  from_socket : Socket;
  to_node : Node;
  to_socket : Socket
}.

Record NodeTree := mkNodeTree {
  tree_nodes : list Node;
  tree_links : list Link
}.

Record Attrs := mkAttrs {
  name : string;
  use_nodes : bool;
  blend_method : option string;
  alpha_threshold : option float;
  show_transparent_back : option bool;
  use_backface_culling : option bool;
  diffuse_color : option color;
  metallic : option float;
  specular : option float;
  roughness : option float;
  node_tree : option NodeTree
}.

(** ** Control flow of a guarded block

    A statement sequence inside [try] either runs on ([Next]), leaves the
    whole function with a value ([Return]), or raises [AttributeError]. *)

Inductive flow (A : Type) :=
  | Next (a : A)
  | Return (b : bool)
  | AttributeError.
Arguments Next {A} a.
Arguments Return {A} b.
Arguments AttributeError {A}.

Global Instance flow_bind : MBind flow := fun A B k x =>
  match x with
  | Next a => k a
  | Return b => Return b
  | AttributeError => AttributeError
  end.

(** [mat.attr] where the attribute may be missing. *)
Definition getattr {A} (o : option A) : flow A :=
  match o with
  | Some a => Next a
  | None => AttributeError
  end.

(** [if cond: return False] *)
Definition return_false_if (cond : bool) : flow unit :=
  if cond then Return false else Next tt.

(** [try: body  except AttributeError: pass] *)
Definition try_except (body : flow unit) : flow unit :=
  match body with
  | AttributeError => Next tt
  | other => other
  end.

(** The value a function body finally yields. Both guarded blocks of the
    comparator are wrapped in [try_except], so the last case is never
    reached from it. *)
Definition run (body : flow bool) : bool :=
  match body with
  | Next b => b
  | Return b => b
  | AttributeError => false
  end.

(** ** Attribute Comparator: [compare_material_properties] *)

(** The literal [0.001]: the double [0x1.0624dd2f1a9fcp-10]. *)
Definition tolerance : float := 0.001%float.

(** [abs(x - y) > 0.001], in binary64: [a > b] is [b < a], and it is
    [False] when the difference is a NaN. *)
Definition differs (x y : float) : bool :=
  (tolerance <? abs (x - y))%float.
Global Arguments differs : simpl never.

Definition hasattr {A} (o : option A) : bool :=
  match o with Some _ => true | None => false end.

(** Lines 32-51. *)
Definition basic_properties (a1 a2 : Attrs) : flow unit :=
  return_false_if (negb (Bool.eqb (use_nodes a1) (use_nodes a2))) ;;
  b1 ← getattr (blend_method a1);
  b2 ← getattr (blend_method a2);
  return_false_if (negb (String.eqb b1 b2)) ;;
  t1 ← getattr (alpha_threshold a1);
  t2 ← getattr (alpha_threshold a2);
  return_false_if (differs t1 t2) ;;
  s1 ← getattr (show_transparent_back a1);
  s2 ← getattr (show_transparent_back a2);
  return_false_if (negb (Bool.eqb s1 s2)) ;;
  c1 ← getattr (use_backface_culling a1);
  c2 ← getattr (use_backface_culling a2);
  return_false_if (negb (Bool.eqb c1 c2)).

(** The [for i, (d1, d2) in enumerate(zip(...))] loop of lines 64-67: it
    returns [False] at the first pair further apart than the tolerance. *)
Fixpoint diffuse_loop (diffuse1 diffuse2 : list float) : flow unit :=
  match diffuse1, diffuse2 with
  | d1 :: rest1, d2 :: rest2 =>
      return_false_if (differs d1 d2) ;; diffuse_loop rest1 rest2
  | _, _ => Next tt
  end.

(** [if hasattr(mat1, a) and hasattr(mat2, a): if abs(..) > 0.001: return False] *)
Definition compare_if_both (v1 v2 : option float) : flow unit :=
  match v1, v2 with
  | Some x, Some y => return_false_if (differs x y)
  | _, _ => Next tt
  end.

(** The [specular] rule of lines 76-82, with its [elif] on presence. *)
Definition compare_specular (v1 v2 : option float) : flow unit :=
  match v1, v2 with
  | Some x, Some y => return_false_if (differs x y)
  | _, _ => return_false_if (negb (Bool.eqb (hasattr v1) (hasattr v2)))
  end.

(** Lines 54-93. *)
Definition surface_properties (a1 a2 : Attrs) : flow unit :=
  c1 ← getattr (diffuse_color a1);
  c2 ← getattr (diffuse_color a2);
  let diffuse1 := color_list c1 in
  let diffuse2 := color_list c2 in
  return_false_if (negb (length diffuse1 =? length diffuse2)%nat) ;;
  diffuse_loop diffuse1 diffuse2 ;;
  compare_if_both (metallic a1) (metallic a2) ;;
  compare_specular (specular a1) (specular a2) ;;
  compare_if_both (roughness a1) (roughness a2).

(** Lines 96-119: the node-shading step. When a tree is [None] the code
    returns [mat1.node_tree == mat2.node_tree], which is true exactly when
    both are [None]. *)
Definition node_shading (a1 a2 : Attrs) : bool :=
  if use_nodes a1 && use_nodes a2 then
    match node_tree a1, node_tree a2 with
    | Some t1, Some t2 =>
        let nodes_match := (length (tree_nodes t1) =? length (tree_nodes t2))%nat in
        let links_match := (length (tree_links t1) =? length (tree_links t2))%nat in
        if negb (nodes_match && links_match) then false else true
    | None, None => true
    | _, _ => false
    end
  else if negb (Bool.eqb (use_nodes a1) (use_nodes a2)) then false
  else true.

Section Scene.

Variable scene : material -> Attrs.

Definition compare_material_properties (mat1 mat2 : option material) : bool :=
  match mat1, mat2 with
  | Some m1, Some m2 =>
      if (m1 =? m2)%nat then false
      else
        run (try_except (basic_properties (scene m1) (scene m2)) ;;
             try_except (surface_properties (scene m1) (scene m2)) ;;
             Next (node_shading (scene m1) (scene m2)))
  | _, _ => false
  end.

(** ** Duplicate Grouper: [find_duplicate_materials]

    [processed] is the Python set of handles; [duplicates] is the Python
    dict, kept as an association list in insertion order (the order in
    which [duplicates.items()] is later walked). The only caller passes
    the slot entries that are not [None]. *)

Definition dict_set {V} (key : material) (value : V)
    (d : list (material * V)) : list (material * V) :=
  if existsb (fun kv : material * V => (kv.1 =? key)%nat) d
  then (fun kv : material * V => if (kv.1 =? key)%nat then (key, value) else kv) <$> d
  else d ++ [(key, value)].

(** Inner loop, lines 243-252, over [materials[i+1:]]. *)
Fixpoint scan_later (mat1 : material) (later : list material)
    (mat_duplicates : list material) (processed : gset material)
    : list material * gset material :=
  match later with
  | [] => (mat_duplicates, processed)
  | mat2 :: rest =>
      if decide (mat2 ∈ processed) then
        scan_later mat1 rest mat_duplicates processed
      else if compare_material_properties (Some mat1) (Some mat2) then
        scan_later mat1 rest (mat_duplicates ++ [mat2]) ({[mat2]} ∪ processed)
      else
        scan_later mat1 rest mat_duplicates processed
  end.

(** Outer loop, lines 236-257. *)
Fixpoint group_loop (materials : list material)
    (duplicates : list (material * list material))
    (processed : gset material) : list (material * list material) :=
  match materials with
  | [] => duplicates
  | mat1 :: later =>
      if decide (mat1 ∈ processed) then group_loop later duplicates processed
      else
        let '(mat_duplicates, processed) := scan_later mat1 later [] processed in
        match mat_duplicates with
        | [] => group_loop later duplicates processed
        | _ :: _ =>
            group_loop later (dict_set mat1 mat_duplicates duplicates)
                       ({[mat1]} ∪ processed)
        end
  end.

Definition find_duplicate_materials (materials : list material)
    : list (material * list material) :=
  group_loop materials [] ∅.

End Scene.

(** ** Node Comparator and Graph Comparator *)

Fixpoint Qlist_eqb (l1 l2 : list Q) : bool :=
  match l1, l2 with
  | [], [] => true
  | x :: r1, y :: r2 => Qeq_bool x y && Qlist_eqb r1 r2
  | _, _ => false
  end.

(** [if hasattr(n1, a) and hasattr(n2, a): if n1.a != n2.a: return False],
    as the boolean "this check lets the nodes pass". *)
Definition same_if_both {A} (eqb : A -> A -> bool) (v1 v2 : option A) : bool :=
  match v1, v2 with
  | Some x, Some y => eqb x y
  | _, _ => true
  end.

Definition compare_node_properties (node1 node2 : Node) : bool :=
  if negb (String.eqb (node_type node1) (node_type node2)) then false
  else if negb (same_if_both Qlist_eqb (node_color node1) (node_color node2)) then false
  else if negb (same_if_both Bool.eqb (node_hide node1) (node_hide node2)) then false
  else if String.eqb (node_type node1) "BSDF_PRINCIPLED" then
    forallb (fun '(input1, input2) =>
               same_if_both Qlist_eqb (default_value input1) (default_value input2))
            (zip (node_inputs node1) (node_inputs node2))
  else if String.eqb (node_type node1) "TEX_IMAGE" then
    if negb (same_if_both (fun i1 i2 => bool_decide (i1 = i2))
                          (node_image node1) (node_image node2)) then false
    else if negb (same_if_both String.eqb (node_interpolation node1)
                               (node_interpolation node2)) then false
    else true
  else true.

(** The matching key of a node, line 143. *)
Definition node_key : Type := string * list Q * string.

Definition key_of (node : Node) : node_key :=
  (node_type node, node_location node, default "" (node_name node)).

Definition node_key_eqb (k1 k2 : node_key) : bool :=
  String.eqb k1.1.1 k2.1.1 && Qlist_eqb k1.1.2 k2.1.2 && String.eqb k1.2 k2.2.

Definition dict_get (key : node_key) (d : list (node_key * Node)) : option Node :=
  snd <$> find (fun kv => node_key_eqb kv.1 key) d.

(** Lines 142-146: [None] stands for the early [return False] on a key
    that is already in the dict. *)
Fixpoint index_nodes (nodes : list Node) (acc : list (node_key * Node))
    : option (list (node_key * Node)) :=
  match nodes with
  | [] => Some acc
  | node :: rest =>
      let key := key_of node in
      if hasattr (dict_get key acc) then None
      else index_nodes rest (acc ++ [(key, node)])
  end.

(** An end of a link as the code writes it, lines 170-173. *)
Definition link_end : Type := string * list Q * string.

Definition link_end_eqb (e1 e2 : link_end) : bool :=
  String.eqb e1.1.1 e2.1.1 && Qlist_eqb e1.1.2 e2.1.2 && String.eqb e1.2 e2.2.

Definition link_key_of (link : Link) : link_end * link_end :=
  ((node_type (from_node link), node_location (from_node link),
    socket_name (from_socket link)),
   (node_type (to_node link), node_location (to_node link),
    socket_name (to_socket link))).

Definition link_key_eqb (k1 k2 : link_end * link_end) : bool :=
  link_end_eqb k1.1 k2.1 && link_end_eqb k1.2 k2.2.

(** A Python set of link keys: a list without repetition. *)
Definition set_mem (k : link_end * link_end) (s : list (link_end * link_end)) : bool :=
  existsb (link_key_eqb k) s.

Definition set_add (k : link_end * link_end) (s : list (link_end * link_end))
    : list (link_end * link_end) :=
  if set_mem k s then s else s ++ [k].

Definition link_set (links : list Link) : list (link_end * link_end) :=
  foldl (fun s link => set_add (link_key_of link) s) [] links.

Definition set_eqb (s1 s2 : list (link_end * link_end)) : bool :=
  forallb (fun k => set_mem k s2) s1 && forallb (fun k => set_mem k s1) s2.

Definition compare_node_trees (tree1 tree2 : option NodeTree) : bool :=
  match tree1, tree2 with
  | Some t1, Some t2 =>
      if negb (length (tree_nodes t1) =? length (tree_nodes t2))%nat then false
      else if negb (length (tree_links t1) =? length (tree_links t2))%nat then false
      else
        match index_nodes (tree_nodes t1) [] with
        | None => false
        | Some nodes1 =>
            match index_nodes (tree_nodes t2) [] with
            | None => false
            | Some nodes2 =>
                if forallb (fun '(key, node1) =>
                              match dict_get key nodes2 with
                              | None => false
                              | Some node2 => compare_node_properties node1 node2
                              end) nodes1
                then set_eqb (link_set (tree_links t1)) (link_set (tree_links t2))
                else false
            end
        end
  | None, None => true
  | _, _ => false
  end.

(** ** Reference Remapper: the operator [execute]

    A mesh is its slot list ([mesh.materials], entries may be [None]) and
    the [material_index] of each of its faces, in face order. *)

Record Mesh := mkMesh {
  mesh_materials : list (option material);
  mesh_faces : list nat
}.

(** Lines 360-363 and 371-374: the first slot that holds the handle. *)
Definition slot_index (target : material) (slots : list (option material))
    : option nat :=
  fst <$> list_find (fun mat => mat = Some target) slots.

(** Lines 369-378, for one [dupe_list]. *)
Definition map_duplicates (slots : list (option material)) (original_idx : nat)
    (dupe_list : list material) (acc : gmap nat nat * gset nat)
    : gmap nat nat * gset nat :=
  foldl (fun acc duplicate =>
           match slot_index duplicate slots with
           | Some duplicate_idx =>
               (<[duplicate_idx := original_idx]> acc.1, {[duplicate_idx]} ∪ acc.2)
           | None => acc
           end) acc dupe_list.

(** Lines 355-378: [(material_mapping, materials_to_remove)]. *)
Definition build_mapping (slots : list (option material))
    (duplicates : list (material * list material)) : gmap nat nat * gset nat :=
  foldl (fun acc '(original, dupe_list) =>
           match slot_index original slots with
           | None => acc
           | Some original_idx => map_duplicates slots original_idx dupe_list acc
           end) (∅, ∅) duplicates.

(** Lines 395-397. *)
Definition reassign (material_mapping : gmap nat nat) (faces : list nat)
    : list nat :=
  (fun material_index => default material_index (material_mapping !! material_index))
    <$> faces.

(** Modelled from the spec: [mesh.materials.pop(index=idx)] belongs to the
    host and is not in the add-on's source. The spec has the removal
    shift the subsequent slots left by one and adjust the positional
    references that shift as a result; this is what Blender does
    ([BKE_id_material_pop] deletes the slot and lowers by one every face
    index that is positive and not below the removed slot). *)
Definition materials_pop (idx : nat) (mesh : Mesh) : Mesh :=
  {| mesh_materials := delete idx (mesh_materials mesh);
     mesh_faces :=
       (fun material_index =>
          if bool_decide (0 < material_index ∧ idx ≤ material_index)
          then pred material_index else material_index) <$> mesh_faces mesh |}.

(** [sorted(materials_to_remove, reverse=True)] *)
Definition descending (x y : nat) : Prop := (y ≤ x)%nat.

Global Instance descending_dec : RelDecision descending :=
  fun x y => decide (y ≤ x)%nat.

Definition sorted_reverse (s : gset nat) : list nat :=
  merge_sort descending (elements s).

(** Lines 404-408. *)
Definition remove_slots (material_indices_to_remove : list nat)
    (mesh : Mesh) (removed_count : nat) : Mesh * nat :=
  foldl (fun '(mesh, removed_count) idx =>
           if (idx <? length (mesh_materials mesh))%nat
           then (materials_pop idx mesh, S removed_count)
           else (mesh, removed_count))
        (mesh, removed_count) material_indices_to_remove.

(** What one turn of the object loop does to a mesh: it either leaves
    through one of the [continue] statements before any mode switch, or
    goes through edit mode and ends with the new mesh and the number of
    slots it removed. *)
Inductive mesh_step :=
  | Skipped
  | Rewritten (mesh : Mesh) (removed : nat).

Section Operator.

Variable scene : material -> Attrs.

(** Lines 324-408 for one mesh. *)
Definition process_mesh (mesh : Mesh) : mesh_step :=
  match mesh_materials mesh with
  | [] => Skipped
  | _ :: _ =>
      let materials := omap id (mesh_materials mesh) in
      if (length materials <? 2)%nat then Skipped
      else
        let duplicates := find_duplicate_materials scene materials in
        match duplicates with
        | [] => Skipped
        | _ :: _ =>
            let '(material_mapping, materials_to_remove) :=
              build_mapping (mesh_materials mesh) duplicates in
            if decide (material_mapping = ∅) then Skipped
            else
              let edited :=
                {| mesh_materials := mesh_materials mesh;
                   mesh_faces := reassign material_mapping (mesh_faces mesh) |} in
              let '(mesh', removed) :=
                remove_slots (sorted_reverse materials_to_remove) edited 0 in
              Rewritten mesh' removed
        end
  end.

(** The host as the operator sees it: mesh data blocks by key (objects may
    share one), and the journal of the host calls made so far. *)
Inductive call :=
  | Report (level message : string)
  | SetActive (object : string)
  | ViewLayerUpdate
  | ModeSet (mode : string).

Record Object := mkObject {
  obj_name : string;
  obj_type : string;
  obj_data : nat
}.

Record Blender := mkBlender {
  meshes : nat -> Mesh;
  journal : list call
}.

Record Run := mkRun {
  host : Blender;
  removed_count : nat;
  processed_objects : nat
}.

Inductive status := FINISHED | CANCELLED.

(** The body of the loop of line 314. *)
Definition process_object (st : Run) (obj : Object) : Run :=
  if negb (String.eqb (obj_type obj) "MESH") then st
  else
    let counted := S (processed_objects st) in
    match process_mesh (meshes (host st) (obj_data obj)) with
    | Skipped =>
        {| host := host st; removed_count := removed_count st;
           processed_objects := counted |}
    | Rewritten mesh' removed =>
        {| host :=
             {| meshes := <[obj_data obj := mesh']> (meshes (host st));
                journal := journal (host st) ++
                  [SetActive (obj_name obj); ViewLayerUpdate;
                   ModeSet "EDIT"; ModeSet "OBJECT"] |};
           removed_count := removed_count st + removed;
           processed_objects := counted |}
    end.

Definition execute (selected_objects : list Object) (blender : Blender)
    : status * Run :=
  let start := {| host := blender; removed_count := 0; processed_objects := 0 |} in
  match selected_objects with
  | [] =>
      (CANCELLED,
       {| host := {| meshes := meshes blender;
                     journal := journal blender ++ [Report "ERROR" "No objects selected!"] |};
          removed_count := 0; processed_objects := 0 |})
  | _ :: _ =>
      let mesh_objects :=
        filter (fun obj => obj_type obj = "MESH") selected_objects in
      match mesh_objects with
      | [] => (CANCELLED, start)
      | _ :: _ => (FINISHED, foldl process_object start selected_objects)
      end
  end.

End Operator.

(** ** Scalar attributes under tolerance

    The attributes the comparator tests with [abs(x - y) > 0.001], and
    what it means for a bundle to differ from another in just one of
    them. *)

Inductive scalar_attribute :=
  | AlphaThreshold
  | DiffuseComponent (i : nat)
  | Metallic
  | Specular
  | Roughness.

Definition read_scalar (f : scalar_attribute) (a : Attrs) : option float :=
  match f with
  | AlphaThreshold => alpha_threshold a
  | DiffuseComponent i => c ← diffuse_color a; color_list c !! i
  | Metallic => metallic a
  | Specular => specular a
  | Roughness => roughness a
  end.

Definition write_component (i : nat) (v : float) (c : color) : color :=
  match c with
  | ColorVec l => ColorVec (<[i := v]> l)
  | ColorScalar q => ColorScalar (match i with O => v | S _ => q end)
  end.

Definition write_scalar (f : scalar_attribute) (v : float) (a : Attrs) : Attrs :=
  {| name := name a;
     use_nodes := use_nodes a;
     blend_method := blend_method a;
     alpha_threshold :=
       match f with AlphaThreshold => Some v | _ => alpha_threshold a end;
     show_transparent_back := show_transparent_back a;
     use_backface_culling := use_backface_culling a;
     diffuse_color :=
       match f with
       | DiffuseComponent i => write_component i v <$> diffuse_color a
       | _ => diffuse_color a
       end;
     metallic := match f with Metallic => Some v | _ => metallic a end;
     specular := match f with Specular => Some v | _ => specular a end;
     roughness := match f with Roughness => Some v | _ => roughness a end;
     node_tree := node_tree a |}.

(** ** Vocabulary of the statements *)

(** The state of the grouper between two turns of its outer loop: keys are
    pairwise distinct, no handle occurs twice among the duplicate lists,
    no key is listed as a duplicate, everything recorded is marked as
    processed, and every list is non-empty and holds only handles that the
    comparator matched with the list's key. *)
Definition grouped (scene : material -> Attrs)
    (d : list (material * list material)) (processed : gset material) : Prop :=
  NoDup d.*1
  ∧ NoDup (mjoin d.*2)
  ∧ (∀ c, c ∈ d.*1 → c ∉ mjoin d.*2)
  ∧ (∀ c, c ∈ d.*1 → c ∈ processed)
  ∧ (∀ x, x ∈ mjoin d.*2 → x ∈ processed)
  ∧ (∀ c ds, (c, ds) ∈ d →
       ds ≠ [] ∧ ∀ x, x ∈ ds →
         compare_material_properties scene (Some c) (Some x) = true).

(** What a face shows: the slot entry its [material_index] points at
    ([None] when the index is past the end of the slot list). Two slot
    entries look the same when they are the same entry, or when the later
    one holds a material that the comparator matched with the earlier
    one. *)
Definition resolved (mesh : Mesh) (material_index : nat) : option (option material) :=
  mesh_materials mesh !! material_index.

Definition same_look (scene : material -> Attrs)
    (before after : option (option material)) : Prop :=
  before = after
  ∨ ∃ d c, before = Some (Some d) ∧ after = Some (Some c)
           ∧ compare_material_properties scene (Some c) (Some d) = true.

(** The index pairs the operator records: every mapped slot index is the
    first slot of a listed duplicate and is sent to the first slot of that
    duplicate's key, and the indices to remove are exactly the mapped
    ones. *)
Definition mapped (slots : list (option material))
    (duplicates : list (material * list material))
    (acc : gmap nat nat * gset nat) : Prop :=
  (∀ k v, acc.1 !! k = Some v →
     ∃ c ds d, (c, ds) ∈ duplicates ∧ d ∈ ds
               ∧ slot_index c slots = Some v ∧ slot_index d slots = Some k)
  ∧ (∀ k, k ∈ acc.2 ↔ is_Some (acc.1 !! k)).

(** Two links have the same ends, as far as the graph comparator looks:
    the node types, the node positions and the socket names agree at the
    source and at the destination. The names of the nodes play no part. *)
Definition same_end (node1 : Node) (socket1 : Socket)
    (node2 : Node) (socket2 : Socket) : Prop :=
  node_type node1 = node_type node2
  ∧ Forall2 Qeq (node_location node1) (node_location node2)
  ∧ socket_name socket1 = socket_name socket2.

Definition same_link_ends (link1 link2 : Link) : Prop :=
  same_end (from_node link1) (from_socket link1) (from_node link2) (from_socket link2)
  ∧ same_end (to_node link1) (to_socket link1) (to_node link2) (to_socket link2).

(** The link descriptor in the words of the spec: each end is the node's
    full matching key (type, position, name) paired with the socket name.
    It is defined here only to be compared with [link_key_of], which is
    what the code builds. *)
Definition spec_link_descriptor (link : Link)
    : (node_key * string) * (node_key * string) :=
  ((key_of (from_node link), socket_name (from_socket link)),
   (key_of (to_node link), socket_name (to_socket link))).

Definition spec_descriptor_eqb
    (d1 d2 : (node_key * string) * (node_key * string)) : bool :=
  node_key_eqb d1.1.1 d2.1.1 && String.eqb d1.1.2 d2.1.2
  && node_key_eqb d1.2.1 d2.2.1 && String.eqb d1.2.2 d2.2.2.

(** Equality of the two descriptor sets, in the words of the spec. *)
Definition spec_descriptor_sets_equal (links1 links2 : list Link) : bool :=
  forallb (fun l1 => existsb (fun l2 => spec_descriptor_eqb (spec_link_descriptor l1)
                                          (spec_link_descriptor l2)) links2) links1
  && forallb (fun l2 => existsb (fun l1 => spec_descriptor_eqb (spec_link_descriptor l2)
                                             (spec_link_descriptor l1)) links1) links2.

(** Where a slot comes from: the index, before the removals [removed] are
    made in that order, of the slot that stands at index [j] after them. *)
Fixpoint origin (removed : list nat) (j : nat) : nat :=
  match removed with
  | [] => j
  | idx :: rest =>
      let g := origin rest j in
      if (g <? idx)%nat then g else S g
  end.

(** The slot list the operator leaves on a mesh. *)
Definition slots_after (scene : material -> Attrs) (mesh : Mesh)
    : list (option material) :=
  match process_mesh scene mesh with
  | Skipped => mesh_materials mesh
  | Rewritten mesh' _ => mesh_materials mesh'
  end.

(** ** Sample scenes

    Concrete materials and meshes on which the statements below are
    exercised. *)

Definition plain : Attrs :=
  {| name := "Material";
     use_nodes := false;
     blend_method := Some "OPAQUE";
     alpha_threshold := Some 0.5%float;
     show_transparent_back := Some true;
     use_backface_culling := Some false;
     diffuse_color := Some (ColorVec [0.8; 0.8; 0.8; 1.0]%float);
     metallic := Some 0.0%float;
     specular := None;
     roughness := Some 0.4%float;
     node_tree := None |}.

(** Every handle carries the same attribute values. *)
Definition copies_scene (m : material) : Attrs := plain.

(** Material 0 has [metallic] 0.0 and [alpha_threshold] 0.5. Material 1 is
    material 0 with [metallic] 0.001 and material 2 is material 0 with
    [metallic] 0.0009: the differences from 0.0 are computed without
    rounding. Material 3 is material 0 with [alpha_threshold] 0.501: the
    difference from 0.5 is computed as [0x1.0624dd2f1aap-10], above the
    literal [0.001]. *)
Definition boundary_scene (m : material) : Attrs :=
  match m with
  | 0 => plain
  | 1 => write_scalar Metallic 0.001%float plain
  | 2 => write_scalar Metallic 0.0009%float plain
  | _ => write_scalar AlphaThreshold 0.501%float plain
  end.

Definition with_nodes (tree : option NodeTree) : Attrs :=
  {| name := "Shaded";
     use_nodes := true;
     blend_method := blend_method plain;
     alpha_threshold := alpha_threshold plain;
     show_transparent_back := show_transparent_back plain;
     use_backface_culling := use_backface_culling plain;
     diffuse_color := diffuse_color plain;
     metallic := metallic plain;
     specular := specular plain;
     roughness := roughness plain;
     node_tree := tree |}.

Definition output_node : Node :=
  {| node_type := "OUTPUT_MATERIAL";
     node_location := [300 # 1; 0 # 1];
     node_name := Some "Material Output";
     node_color := None;
     node_hide := Some false;
     node_inputs := [mkSocket "Surface" None];
     node_image := None;
     node_interpolation := None |}.

Definition image_node (label : string) (image : nat) : Node :=
  {| node_type := "TEX_IMAGE";
     node_location := [0 # 1; 0 # 1];
     node_name := Some label;
     node_color := None;
     node_hide := Some false;
     node_inputs := [mkSocket "Vector" None];
     node_image := Some (Some image);
     node_interpolation := Some "Linear" |}.

Definition color_socket : Socket := mkSocket "Color" None.
Definition surface_socket : Socket := mkSocket "Surface" None.

(** Two image nodes stacked at one position, as left by duplicating a node
    without moving it, each with an image of its own; the two trees differ
    in which of the two nodes feeds the output. *)
Definition stacked_nodes : list Node :=
  [image_node "Image Texture" 7; image_node "Image Texture.001" 8; output_node].

Definition tree_first : NodeTree :=
  {| tree_nodes := stacked_nodes;
     tree_links :=
       [mkLink (image_node "Image Texture" 7) color_socket output_node surface_socket] |}.

Definition tree_second : NodeTree :=
  {| tree_nodes := stacked_nodes;
     tree_links :=
       [mkLink (image_node "Image Texture.001" 8) color_socket output_node surface_socket] |}.

(** Materials 0 and 1 are node-shaded with trees of equal size, material 2
    does not use nodes, materials 3 and up are node-shaded without a tree. *)
Definition shaded_scene (m : material) : Attrs :=
  match m with
  | 0 => with_nodes (Some tree_first)
  | 1 => with_nodes (Some tree_second)
  | 2 => plain
  | _ => with_nodes None
  end.

(** Materials 0 and 1 are copies, materials 2 and up are copies of one
    another that blend differently from 0 and 1. *)
Definition pairs_scene (m : material) : Attrs :=
  match m with
  | 0 | 1 => plain
  | _ =>
      {| name := "Glass";
         use_nodes := use_nodes plain;
         blend_method := Some "BLEND";
         alpha_threshold := alpha_threshold plain;
         show_transparent_back := show_transparent_back plain;
         use_backface_culling := use_backface_culling plain;
         diffuse_color := diffuse_color plain;
         metallic := metallic plain;
         specular := specular plain;
         roughness := roughness plain;
         node_tree := node_tree plain |}
  end.

(** Slots [A, B, C, D] with B a copy of A and D a copy of C. *)
Definition four_slots : Mesh :=
  {| mesh_materials := [Some 0; Some 1; Some 2; Some 3];
     mesh_faces := [0; 1; 2; 3; 1; 3] |}.

(** Slots [A, B, B]: the copy B of A sits in two slots. *)
Definition repeated_slot : Mesh :=
  {| mesh_materials := [Some 0; Some 1; Some 1];
     mesh_faces := [0; 1; 2] |}.

Definition one_slot : Mesh :=
  {| mesh_materials := [Some 0]; mesh_faces := [0; 0] |}.

(** A cube whose mesh has a single slot, a light, and a host in which
    every mesh key holds that mesh. *)
Definition cube : Object := mkObject "Cube" "MESH" 0.
Definition light : Object := mkObject "Light" "LIGHT" 1.

Definition single_slot_host : Blender :=
  {| meshes := fun _ => one_slot; journal := [] |}.

(** ** More of the add-on and of the vocabulary *)

(** [OBJECT_OT_remove_duplicate_materials.poll], lines 282-287. *)
Definition poll (selected_objects : list Object) : bool :=
  (0 <? length selected_objects)%nat.

(** The calls that one rewritten object adds to the journal, lines 385-401. *)
Definition edit_block (object : string) : list call :=
  [SetActive object; ViewLayerUpdate; ModeSet "EDIT"; ModeSet "OBJECT"].

(** Two bundles agree on the attributes of the first guarded block, on
    those of the second one, and on the node data. *)
Definition same_basic (a1 a2 : Attrs) : Prop :=
  blend_method a1 = blend_method a2
  ∧ alpha_threshold a1 = alpha_threshold a2
  ∧ show_transparent_back a1 = show_transparent_back a2
  ∧ use_backface_culling a1 = use_backface_culling a2.

Definition same_surface (a1 a2 : Attrs) : Prop :=
  diffuse_color a1 = diffuse_color a2
  ∧ metallic a1 = metallic a2
  ∧ specular a1 = specular a2
  ∧ roughness a1 = roughness a2.

Definition same_node_data (a1 a2 : Attrs) : Prop :=
  use_nodes a1 = use_nodes a2 ∧ node_tree a1 = node_tree a2.

(** Materials 0, 1 and 2 have alpha thresholds 0.5, 0.5008 and 0.5016:
    each is within the tolerance of the next, the first is not within the
    tolerance of the last. *)
Definition drift_scene (m : material) : Attrs :=
  match m with
  | 0 => plain
  | 1 => write_scalar AlphaThreshold 0.5008%float plain
  | _ => write_scalar AlphaThreshold 0.5016%float plain
  end.

(** No two nodes of a list have the same matching key. *)
Definition keys_distinct (nodes : list Node) : Prop :=
  ∀ i j node1 node2,
    i ≠ j → nodes !! i = Some node1 → nodes !! j = Some node2 →
    node_key_eqb (key_of node1) (key_of node2) = false.

(** A bundle without nodes, with the given values for the attributes that
    may be missing. *)
Definition sample (blend : option string) (alpha : float) (culling : bool)
    (diffuse : option color) (metal spec rough : option float) : Attrs :=
  {| name := "Sample";
     use_nodes := false;
     blend_method := blend;
     alpha_threshold := Some alpha;
     show_transparent_back := Some true;
     use_backface_culling := Some culling;
     diffuse_color := diffuse;
     metallic := metal;
     specular := spec;
     roughness := rough;
     node_tree := None |}.

Definition grey : color := ColorVec [0.5; 0.5; 0.5; 1.0]%float.

(** Material 0 has no [blend_method], and material 1 differs from it in
    the alpha threshold and in backface culling; material 2 has no
    [diffuse_color], and material 3 differs from it in [metallic],
    [specular] and [roughness]. *)
Definition bare_scene (m : material) : Attrs :=
  match m with
  | 0 => sample None 0.5%float false (Some grey) (Some 0.0%float) None (Some 0.5%float)
  | 1 => sample (Some "BLEND") 0.9%float true (Some grey) (Some 0.0%float) None (Some 0.5%float)
  | 2 => sample (Some "OPAQUE") 0.5%float false None (Some 0.0%float) None (Some 0.5%float)
  | _ => sample (Some "OPAQUE") 0.5%float false None (Some 1.0%float) (Some 0.5%float) None
  end.

(** Material 1 is material 0 without [metallic], material 2 is material 0
    with a [specular] value, material 3 is material 0 without
    [roughness]. *)
Definition presence_scene (m : material) : Attrs :=
  match m with
  | 0 => sample (Some "OPAQUE") 0.5%float false (Some grey) (Some 0.0%float) None (Some 0.5%float)
  | 1 => sample (Some "OPAQUE") 0.5%float false (Some grey) None None (Some 0.5%float)
  | 2 => sample (Some "OPAQUE") 0.5%float false (Some grey) (Some 0.0%float) (Some 0.5%float) (Some 0.5%float)
  | _ => sample (Some "OPAQUE") 0.5%float false (Some grey) (Some 0.0%float) None None
  end.

(** The dict that lines 142-146 build from a node list without a repeated
    key: every node under its key, in order. *)
Definition indexed (nodes : list Node) : list (node_key * Node) :=
  (fun node => (key_of node, node)) <$> nodes.

(** A graph with the same node listed twice. *)
Definition twin_tree : NodeTree :=
  {| tree_nodes := [output_node; output_node]; tree_links := [] |}.

(** A host whose mesh 0 is the four-slot mesh, and two objects that share
    that mesh. *)
Definition shared_host : Blender :=
  {| meshes := fun key => match key with 0 => four_slots | _ => one_slot end;
     journal := [] |}.

Definition cube_copy : Object := mkObject "Cube.001" "MESH" 0.

(** * Properties *)

(** ** The tolerance test *)

Lemma Bool_eqb_sym (a b : bool) : Bool.eqb a b = Bool.eqb b a.
Proof. by destruct a, b. Qed.

(** Rounding to nearest even does not look at the sign: a mantissa and its
    opposite are rounded to opposite values. *)
Lemma SFabs_binary_normalize m e :
  SFabs (binary_normalize prec emax m e false)
  = SFabs (binary_normalize prec emax (- m) e false).
Proof.
  destruct m as [|p|p]; [done| |];
    [change (- Z.pos p)%Z with (Z.neg p) | change (- Z.neg p)%Z with (Z.pos p)];
    unfold binary_normalize, binary_round;
    destruct (shl_align _ _ _) as [mz ez]; unfold binary_round_aux;
    repeat match goal with
           | |- context [shr_fexp ?p ?q ?m ?x ?l] =>
               destruct (shr_fexp p q m x l) as [? ?]
           end;
    match goal with |- context [shr_m ?r] => destruct (shr_m r) end;
    try reflexivity; destruct (Z.leb _ _); reflexivity.
Qed.

(** [abs(x - y)] and [abs(y - x)] are the same double, NaN and infinities
    included. *)
Lemma SFabs_SF64sub x y : SFabs (SF64sub x y) = SFabs (SF64sub y x).
Proof.
  unfold SF64sub, SFsub.
  destruct x as [[]|[]| |sx mx ex], y as [[]|[]| |sy my ey]; try reflexivity.
  rewrite (Z.min_comm ey ex), SFabs_binary_normalize. f_equal. f_equal. lia.
Qed.

(** [abs(x - x)] is zero, or a NaN when [x] is infinite or a NaN. *)
Lemma SFabs_SF64sub_diag x :
  SFabs (SF64sub x x) = S754_zero false ∨ SFabs (SF64sub x x) = S754_nan.
Proof.
  unfold SF64sub, SFsub.
  destruct x as [[]|[]| |sx mx ex]; auto.
  rewrite Z.sub_diag. auto.
Qed.

Lemma differs_sym x y : differs x y = differs y x.
Proof.
  unfold differs. rewrite !ltb_spec, !abs_spec, !sub_spec.
  by rewrite SFabs_SF64sub.
Qed.

Lemma differs_refl x : differs x x = false.
Proof.
  unfold differs. rewrite ltb_spec, abs_spec, sub_spec.
  by destruct (SFabs_SF64sub_diag (Prim2SF x)) as [-> | ->].
Qed.

(** ** Symmetry of the blocks of the comparator *)

Lemma basic_properties_sym a1 a2 : basic_properties a1 a2 = basic_properties a2 a1.
Proof.
  unfold basic_properties.
  rewrite (Bool_eqb_sym (use_nodes a2) (use_nodes a1)).
  destruct (Bool.eqb (use_nodes a1) (use_nodes a2)); [|done].
  destruct (blend_method a1) as [b1|], (blend_method a2) as [b2|]; try done.
  cbn. rewrite (String.eqb_sym b2 b1). destruct (String.eqb b1 b2); [|done].
  destruct (alpha_threshold a1) as [t1|], (alpha_threshold a2) as [t2|]; try done.
  cbn. rewrite (differs_sym t2 t1). destruct (differs t1 t2); [done|].
  destruct (show_transparent_back a1) as [s1|], (show_transparent_back a2) as [s2|];
    try done.
  cbn. rewrite (Bool_eqb_sym s2 s1). destruct (Bool.eqb s1 s2); [|done].
  destruct (use_backface_culling a1) as [c1|], (use_backface_culling a2) as [c2|];
    try done.
  cbn. by rewrite (Bool_eqb_sym c2 c1).
Qed.

Lemma diffuse_loop_sym l1 l2 : diffuse_loop l1 l2 = diffuse_loop l2 l1.
Proof.
  revert l2. induction l1 as [|d1 l1 IH]; intros [|d2 l2]; try done.
  cbn. rewrite (differs_sym d2 d1), (IH l2). done.
Qed.

Lemma compare_if_both_sym v1 v2 : compare_if_both v1 v2 = compare_if_both v2 v1.
Proof. destruct v1, v2; cbn; try done. by rewrite differs_sym. Qed.

Lemma compare_specular_sym v1 v2 : compare_specular v1 v2 = compare_specular v2 v1.
Proof. destruct v1, v2; cbn; try done. by rewrite differs_sym. Qed.

Lemma surface_properties_sym a1 a2 :
  surface_properties a1 a2 = surface_properties a2 a1.
Proof.
  unfold surface_properties.
  destruct (diffuse_color a1) as [c1|], (diffuse_color a2) as [c2|]; try done.
  cbn. rewrite (Nat.eqb_sym (length (color_list c2))).
  rewrite (diffuse_loop_sym (color_list c2)).
  rewrite (compare_if_both_sym (metallic a2)), (compare_specular_sym (specular a2)).
  by rewrite (compare_if_both_sym (roughness a2)).
Qed.

Lemma node_shading_sym a1 a2 : node_shading a1 a2 = node_shading a2 a1.
Proof.
  unfold node_shading.
  rewrite (andb_comm (use_nodes a2)), (Bool_eqb_sym (use_nodes a2)).
  destruct (use_nodes a1 && use_nodes a2); [|done].
  destruct (node_tree a1) as [t1|], (node_tree a2) as [t2|]; try done.
  by rewrite (Nat.eqb_sym (length (tree_nodes t2))),
             (Nat.eqb_sym (length (tree_links t2))).
Qed.

Lemma compare_sym scene (m1 m2 : material) :
  compare_material_properties scene (Some m1) (Some m2)
  = compare_material_properties scene (Some m2) (Some m1).
Proof.
  unfold compare_material_properties.
  rewrite (Nat.eqb_sym m2 m1).
  destruct (m1 =? m2)%nat; [done|].
  by rewrite (basic_properties_sym (scene m2)),
             (surface_properties_sym (scene m2)), (node_shading_sym (scene m2)).
Qed.

Lemma compare_irrefl scene (m : material) :
  compare_material_properties scene (Some m) (Some m) = false.
Proof. unfold compare_material_properties. by rewrite Nat.eqb_refl. Qed.

Lemma compare_true_ne scene (m1 m2 : material) :
  compare_material_properties scene (Some m1) (Some m2) = true → m1 ≠ m2.
Proof. intros H ->. by rewrite compare_irrefl in H. Qed.

(** C7. A material is never reported as a duplicate of itself, and the
    comparison is false as soon as one of its two arguments is [None]. *)
Theorem compare_material_properties_never_self scene (m : material)
    (other : option material) :
  compare_material_properties scene (Some m) (Some m) = false
  ∧ compare_material_properties scene None other = false
  ∧ compare_material_properties scene other None = false.
Proof.
  split_and!.
  - apply compare_irrefl.
  - done.
  - by destruct other.
Qed.

(** C8. The comparison gives the same answer with its arguments swapped,
    whatever attributes are present on either side. *)
Theorem compare_material_properties_symmetric scene (mat1 mat2 : option material) :
  compare_material_properties scene mat1 mat2
  = compare_material_properties scene mat2 mat1.
Proof.
  destruct mat1 as [m1|], mat2 as [m2|]; try done.
  apply compare_sym.
Qed.

(** ** The node-shading step *)

Lemma use_nodes_mismatch_basic a1 a2 :
  use_nodes a1 ≠ use_nodes a2 → basic_properties a1 a2 = Return false.
Proof.
  intros Hne. unfold basic_properties.
  destruct (use_nodes a1), (use_nodes a2); done.
Qed.

Lemma compare_reaches_node_shading scene (m1 m2 : material) :
  m1 ≠ m2 →
  try_except (basic_properties (scene m1) (scene m2)) = Next tt →
  try_except (surface_properties (scene m1) (scene m2)) = Next tt →
  compare_material_properties scene (Some m1) (Some m2)
  = node_shading (scene m1) (scene m2).
Proof.
  intros Hne Hb Hs. unfold compare_material_properties.
  apply Nat.eqb_neq in Hne. by rewrite Hne, Hb, Hs.
Qed.

(** C6. At the node-shading step: when exactly one material uses nodes the
    step, and with it the comparison, is false; when both use nodes and
    both have a tree, the step passes exactly when the node counts and the
    link counts agree; when both use nodes and neither has a tree, the step
    passes. A comparison that gets through the two attribute blocks yields
    the result of this step. *)
Theorem node_shading_step scene (m1 m2 : material) :
  (use_nodes (scene m1) ≠ use_nodes (scene m2) →
     node_shading (scene m1) (scene m2) = false
     ∧ compare_material_properties scene (Some m1) (Some m2) = false)
  ∧ (∀ t1 t2,
       use_nodes (scene m1) = true → use_nodes (scene m2) = true →
       node_tree (scene m1) = Some t1 → node_tree (scene m2) = Some t2 →
       node_shading (scene m1) (scene m2) = true
       ↔ length (tree_nodes t1) = length (tree_nodes t2)
         ∧ length (tree_links t1) = length (tree_links t2))
  ∧ (use_nodes (scene m1) = true → use_nodes (scene m2) = true →
     node_tree (scene m1) = None → node_tree (scene m2) = None →
     node_shading (scene m1) (scene m2) = true)
  ∧ (m1 ≠ m2 →
     try_except (basic_properties (scene m1) (scene m2)) = Next tt →
     try_except (surface_properties (scene m1) (scene m2)) = Next tt →
     compare_material_properties scene (Some m1) (Some m2)
     = node_shading (scene m1) (scene m2)).
Proof.
  split_and!.
  - intros Hne. split.
    + unfold node_shading. destruct (use_nodes (scene m1)), (use_nodes (scene m2)); done.
    + unfold compare_material_properties.
      destruct (m1 =? m2)%nat; [done|].
      by rewrite (use_nodes_mismatch_basic _ _ Hne).
  - intros t1 t2 H1 H2 Ht1 Ht2. unfold node_shading.
    rewrite H1, H2, Ht1, Ht2. cbn.
    destruct (Nat.eqb_spec (length (tree_nodes t1)) (length (tree_nodes t2)));
      destruct (Nat.eqb_spec (length (tree_links t1)) (length (tree_links t2)));
      cbn; intuition congruence.
  - intros H1 H2 Ht1 Ht2. unfold node_shading. by rewrite H1, H2, Ht1, Ht2.
  - apply compare_reaches_node_shading.
Qed.

Lemma node_shading_step_witness :
  (node_shading (shaded_scene 0) (shaded_scene 2) = false
   ∧ compare_material_properties shaded_scene (Some 0) (Some 2) = false)
  ∧ (node_shading (shaded_scene 0) (shaded_scene 1) = true
     ↔ length (tree_nodes tree_first) = length (tree_nodes tree_second)
       ∧ length (tree_links tree_first) = length (tree_links tree_second))
  ∧ node_shading (shaded_scene 3) (shaded_scene 4) = true
  ∧ compare_material_properties shaded_scene (Some 0) (Some 1)
    = node_shading (shaded_scene 0) (shaded_scene 1).
Proof.
  split; [|split; [|split]].
  - destruct (node_shading_step shaded_scene 0 2) as (H & _).
    apply H. cbn. discriminate.
  - destruct (node_shading_step shaded_scene 0 1) as (_ & H & _).
    apply H; reflexivity.
  - destruct (node_shading_step shaded_scene 3 4) as (_ & _ & H & _).
    apply H; reflexivity.
  - destruct (node_shading_step shaded_scene 0 1) as (_ & _ & _ & H).
    apply H; [lia | reflexivity | reflexivity].
Defined.

(** ** The tolerance boundary *)

Lemma basic_properties_same a : try_except (basic_properties a a) = Next tt.
Proof.
  unfold basic_properties. rewrite Bool.eqb_reflx. cbn.
  destruct (blend_method a); [|done]. cbn. rewrite String.eqb_refl. cbn.
  destruct (alpha_threshold a); [|done]. cbn. rewrite differs_refl. cbn.
  destruct (show_transparent_back a); [|done]. cbn. rewrite Bool.eqb_reflx. cbn.
  destruct (use_backface_culling a); [|done]. cbn. by rewrite Bool.eqb_reflx.
Qed.

Lemma diffuse_loop_same l : diffuse_loop l l = Next tt.
Proof. induction l as [|d l IH]; [done|]. cbn. by rewrite differs_refl. Qed.


Lemma compare_if_both_same v : compare_if_both v v = Next tt.
Proof. destruct v; [|done]. cbn. by rewrite differs_refl. Qed.

Lemma compare_specular_same v : compare_specular v v = Next tt.
Proof. destruct v; [|done]. cbn. by rewrite differs_refl. Qed.

Lemma surface_properties_same a : try_except (surface_properties a a) = Next tt.
Proof.
  unfold surface_properties. destruct (diffuse_color a); [|done]. cbn.
  rewrite Nat.eqb_refl. cbn. rewrite diffuse_loop_same. cbn.
  rewrite compare_if_both_same. cbn. rewrite compare_specular_same. cbn.
  by rewrite compare_if_both_same.
Qed.

Lemma node_shading_same a : node_shading a a = true.
Proof.
  unfold node_shading. rewrite Bool.eqb_reflx.
  destruct (use_nodes a); [|done]. cbn.
  destruct (node_tree a); [|done]. by rewrite !Nat.eqb_refl.
Qed.







(** Whether two values written one thousandth apart pass the test depends
    on how their difference rounds: for [alpha_threshold] 0.5 against
    0.501 the computed difference is above the constant, and the materials
    are different. *)
Example rounded_difference_above_tolerance :
  boundary_scene 3 = write_scalar AlphaThreshold 0.501%float (boundary_scene 0)
  ∧ abs (0.5 - 0.501) = 0x1.0624dd2f1aap-10%float
  ∧ differs 0.5 0.501 = true
  ∧ compare_material_properties boundary_scene (Some 0) (Some 3) = false.
Proof. split_and!; reflexivity. Qed.

Lemma diffuse_loop_insert_far l i v1 v2 :
  l !! i = Some v1 → differs v1 v2 = true →
  diffuse_loop l (<[i := v2]> l) = Return false.
Proof.
  revert i. induction l as [|d l IH]; intros [|i] Hl Hd; try done.
  - cbn in *. injection Hl as ->. by rewrite Hd.
  - cbn in *. rewrite differs_refl. cbn. by apply IH.
Qed.

(** The other side of the boundary: a positive tolerance test makes the
    materials different, provided the test of that attribute is
    reached, that is, provided no earlier attribute of its block is
    missing. *)
Lemma beyond_tolerance scene (m1 m2 : material) f v1 v2 :
  m1 ≠ m2 →
  read_scalar f (scene m1) = Some v1 →
  scene m2 = write_scalar f v2 (scene m1) →
  is_Some (blend_method (scene m1)) →
  is_Some (diffuse_color (scene m1)) →
  differs v1 v2 = true →
  compare_material_properties scene (Some m1) (Some m2) = false.
Proof.
  intros Hne Hr Hw [b Hb] [c Hc] Hd.
  unfold compare_material_properties.
  apply Nat.eqb_neq in Hne. rewrite Hne, Hw. clear Hne Hw.
  destruct f.
  - unfold basic_properties. cbn in *. rewrite Bool.eqb_reflx. cbn.
    rewrite Hb. cbn. rewrite String.eqb_refl. cbn. rewrite Hr. cbn. by rewrite Hd.
  - change (basic_properties (scene m1) (write_scalar (DiffuseComponent i) v2 (scene m1)))
      with (basic_properties (scene m1) (scene m1)).
    rewrite basic_properties_same. cbn in *.
    unfold surface_properties. cbn. rewrite Hc in *. cbn in *.
    assert (length (color_list c) = length (color_list (write_component i v2 c))
            ∧ diffuse_loop (color_list c) (color_list (write_component i v2 c))
              = Return false) as [Hlen Hloop].
    { destruct c as [l|q]; cbn in *.
      - rewrite length_insert. split; [done|]. by eapply diffuse_loop_insert_far.
      - destruct i; [|done]. cbn in Hr. injection Hr as ->. by rewrite Hd. }
    rewrite <- Hlen, Nat.eqb_refl. cbn. by rewrite Hloop.
  - change (basic_properties (scene m1) (write_scalar Metallic v2 (scene m1)))
      with (basic_properties (scene m1) (scene m1)).
    rewrite basic_properties_same. cbn in *.
    unfold surface_properties. cbn. rewrite Hc. cbn.
    rewrite Nat.eqb_refl. cbn. rewrite diffuse_loop_same. cbn.
    rewrite Hr. cbn. by rewrite Hd.
  - change (basic_properties (scene m1) (write_scalar Specular v2 (scene m1)))
      with (basic_properties (scene m1) (scene m1)).
    rewrite basic_properties_same. cbn in *.
    unfold surface_properties. cbn. rewrite Hc. cbn.
    rewrite Nat.eqb_refl. cbn. rewrite diffuse_loop_same. cbn.
    rewrite (compare_if_both_same (metallic (scene m1))). cbn. rewrite Hr. cbn. by rewrite Hd.
  - change (basic_properties (scene m1) (write_scalar Roughness v2 (scene m1)))
      with (basic_properties (scene m1) (scene m1)).
    rewrite basic_properties_same. cbn in *.
    unfold surface_properties. cbn. rewrite Hc. cbn.
    rewrite Nat.eqb_refl. cbn. rewrite diffuse_loop_same. cbn.
    rewrite (compare_if_both_same (metallic (scene m1))). cbn. rewrite compare_specular_same. cbn.
    rewrite Hr. cbn. by rewrite Hd.
Qed.

(** ** The duplicate grouper *)

Lemma dict_set_fresh {V} (key : material) (value : V) d :
  key ∉ d.*1 → dict_set key value d = d ++ [(key, value)].
Proof.
  intros Hfresh. unfold dict_set.
  destruct (existsb _ d) eqn:Hex; [|done].
  apply existsb_exists in Hex as ([k v] & Hin & Heq).
  apply Nat.eqb_eq in Heq. cbn in Heq. subst k.
  exfalso. apply Hfresh, list_elem_of_fmap. exists (key, v). split; [done|].
  by apply list_elem_of_In.
Qed.

Lemma elem_of_dict_set {V} (key : material) (value : V) d kv :
  kv ∈ dict_set key value d → kv = (key, value) ∨ kv ∈ d.
Proof.
  unfold dict_set. destruct (existsb _ d).
  - intros (kv' & -> & Hin)%list_elem_of_fmap.
    destruct (kv'.1 =? key)%nat; auto.
  - rewrite elem_of_app, list_elem_of_singleton. tauto.
Qed.

Section Grouper.

Variable scene : material -> Attrs.


Lemma scan_later_cons mat1 mat2 rest acc processed :
  scan_later scene mat1 (mat2 :: rest) acc processed
  = if decide (mat2 ∈ processed) then scan_later scene mat1 rest acc processed
    else if compare_material_properties scene (Some mat1) (Some mat2)
         then scan_later scene mat1 rest (acc ++ [mat2]) ({[mat2]} ∪ processed)
         else scan_later scene mat1 rest acc processed.
Proof. reflexivity. Qed.

Lemma scan_later_spec mat1 later acc processed :
  ∃ found,
    scan_later scene mat1 later acc processed
    = (acc ++ found, list_to_set found ∪ processed)
    ∧ NoDup found
    ∧ (∀ x, x ∈ found → x ∈ later ∧ (x ∉ processed) ∧ compare_material_properties scene (Some mat1) (Some x) = true)
    ∧ (∀ x, x ∈ later → x ∉ found → x ∉ processed →
         compare_material_properties scene (Some mat1) (Some x) = false).
Proof.
  revert acc processed.
  induction later as [|mat2 rest IH]; intros acc processed;
    [cbn | rewrite scan_later_cons].
  - exists []. rewrite app_nil_r. split; [|split; [|split]].
    + f_equal. set_solver.
    + constructor.
    + intros x Hx. by apply elem_of_nil in Hx.
    + intros x Hx. by apply elem_of_nil in Hx.
  - destruct (decide (mat2 ∈ processed)) as [Hin|Hnot].
    { destruct (IH acc processed) as (found & -> & Hnd & Hsound & Hcomplete).
      exists found. split; [done|]. split; [done|]. split.
      - intros x Hx. destruct (Hsound x Hx) as (? & ? & ?).
        split; [|done]. apply elem_of_cons. by right.
      - intros x [->|Hx]%elem_of_cons Hnf Hnp; [done|]. by apply Hcomplete. }
    destruct (compare_material_properties scene (Some mat1) (Some mat2)) eqn:Hcmp.
    + destruct (IH (acc ++ [mat2]) ({[mat2]} ∪ processed))
        as (found & -> & Hnd & Hsound & Hcomplete).
      exists (mat2 :: found). split; [|split; [|split]].
      * rewrite <- app_assoc. cbn. f_equal. set_solver.
      * apply NoDup_cons. split; [|done].
        intros Hx. destruct (Hsound mat2 Hx) as (_ & Hn & _). set_solver.
      * intros x [->|Hx]%elem_of_cons.
        { split; [|done]. apply elem_of_cons. by left. }
        destruct (Hsound x Hx) as (? & ? & ?).
        split; [apply elem_of_cons; by right|]. split; [set_solver|done].
      * intros x [->|Hx]%elem_of_cons Hnf Hnp.
        { exfalso. apply Hnf, elem_of_cons. by left. }
        apply Hcomplete; [done| |].
        { intros ?. apply Hnf, elem_of_cons. by right. }
        { destruct (decide (x = mat2)) as [->|?]; [|set_solver].
          exfalso. apply Hnf, elem_of_cons. by left. }
    + destruct (IH acc processed) as (found & -> & Hnd & Hsound & Hcomplete).
      exists found. split; [done|]. split; [done|]. split.
      * intros x Hx. destruct (Hsound x Hx) as (? & ? & ?).
        split; [|done]. apply elem_of_cons. by right.
      * intros x [->|Hx]%elem_of_cons Hnf Hnp; [congruence|]. by apply Hcomplete.
Qed.

Lemma group_loop_cons mat1 later d processed :
  group_loop scene (mat1 :: later) d processed
  = if decide (mat1 ∈ processed) then group_loop scene later d processed
    else
      let '(mat_duplicates, processed') := scan_later scene mat1 later [] processed in
      match mat_duplicates with
      | [] => group_loop scene later d processed'
      | _ :: _ =>
          group_loop scene later (dict_set mat1 mat_duplicates d)
                     ({[mat1]} ∪ processed')
      end.
Proof. reflexivity. Qed.

Lemma grouped_mono d p1 p2 : p1 ⊆ p2 → grouped scene d p1 → grouped scene d p2.
Proof.
  intros Hsub (H1 & H2 & H3 & H4 & H5 & H6).
  repeat split; try done; intros; [apply Hsub, H4 | apply Hsub, H5 | ..];
    try done; by eapply H6.
Qed.

Lemma grouped_add d processed mat1 found :
  grouped scene d processed →
  mat1 ∉ processed →
  found ≠ [] →
  NoDup found →
  (∀ x, x ∈ found →
     (x ∉ processed) ∧ compare_material_properties scene (Some mat1) (Some x) = true) →
  grouped scene (dict_set mat1 found d)
          ({[mat1]} ∪ (list_to_set found ∪ processed)).
Proof.
  intros (Hk & Hd & Hkd & Hkp & Hdp & He) Hm Hne Hnd Hf.
  assert (mat1 ∉ found) as Hself.
  { intros Hin. destruct (Hf _ Hin) as [_ Hc]. by rewrite compare_irrefl in Hc. }
  rewrite dict_set_fresh by (intros Hin; by apply Hm, Hkp).
  unfold grouped. rewrite !fmap_app, join_app. cbn. rewrite app_nil_r.
  split_and!.
  - apply NoDup_app. split_and!; [done| |apply NoDup_singleton].
    intros c Hc ->%list_elem_of_singleton. by apply Hm, Hkp.
  - apply NoDup_app. split_and!; [done| |done].
    intros x Hx Hin. destruct (Hf _ Hin) as [Hn _]. by apply Hn, Hdp.
  - intros c [Hc | ->%list_elem_of_singleton]%elem_of_app
             [Hx | Hx]%elem_of_app.
    + by apply (Hkd c).
    + destruct (Hf _ Hx) as [Hn _]. by apply Hn, Hkp.
    + by apply Hm, Hdp.
    + done.
  - intros c [Hc | ->%list_elem_of_singleton]%elem_of_app.
    + apply elem_of_union_r, elem_of_union_r. by apply Hkp.
    + apply elem_of_union_l. by apply elem_of_singleton.
  - intros x [Hx | Hx]%elem_of_app.
    + apply elem_of_union_r, elem_of_union_r. by apply Hdp.
    + apply elem_of_union_r, elem_of_union_l. by apply elem_of_list_to_set.
  - intros c ds [Hin | Heq%list_elem_of_singleton]%elem_of_app.
    + by apply He.
    + injection Heq as -> ->. split; [done|]. intros x Hx. by apply Hf.
Qed.

Lemma group_loop_grouped materials d processed :
  grouped scene d processed →
  ∃ processed', grouped scene (group_loop scene materials d processed) processed'.
Proof.
  revert d processed.
  induction materials as [|mat1 later IH]; intros d processed Hg.
  - by exists processed.
  - rewrite group_loop_cons.
    destruct (decide (mat1 ∈ processed)) as [Hin|Hnot]; [by apply IH|].
    destruct (scan_later_spec mat1 later [] processed)
      as (found & -> & Hnd & Hsound & _).
    cbn. destruct found as [|x found'] eqn:Hfound.
    + apply IH. eapply grouped_mono; [|done]. apply union_subseteq_r.
    + apply IH. rewrite <- Hfound in *. apply grouped_add; try done.
      * by rewrite Hfound.
      * intros y Hy. destruct (Hsound y Hy) as (_ & ? & ?). done.
Qed.

Lemma grouped_empty : grouped scene [] ∅.
Proof.
  repeat split; try apply NoDup_nil_2; cbn; intros; try done;
    exfalso; by eapply elem_of_nil.
Qed.

Lemma find_duplicate_materials_grouped materials :
  ∃ processed, grouped scene (find_duplicate_materials scene materials) processed.
Proof. apply group_loop_grouped, grouped_empty. Qed.

Lemma group_loop_entries materials d processed c ds :
  (c, ds) ∈ group_loop scene materials d processed →
  (c, ds) ∈ d ∨ ∃ l1 l2, materials = l1 ++ c :: l2 ∧ ∀ x, x ∈ ds → x ∈ l2.
Proof.
  revert d processed.
  induction materials as [|mat1 later IH]; intros d processed Hin; [by left|].
  rewrite group_loop_cons in Hin.
  assert (∀ d' p', (c, ds) ∈ group_loop scene later d' p' →
            (c, ds) ∈ d' ∨ ∃ l1 l2, mat1 :: later = l1 ++ c :: l2
                                     ∧ ∀ x, x ∈ ds → x ∈ l2) as IH'.
  { intros d' p' [?|(l1 & l2 & -> & ?)]%IH; [by left|right].
    by exists (mat1 :: l1), l2. }
  destruct (decide (mat1 ∈ processed)); [by apply IH' in Hin|].
  destruct (scan_later_spec mat1 later [] processed)
    as (found & Hscan & _ & Hsound & _).
  rewrite Hscan in Hin. cbn in Hin. destruct found as [|x found'] eqn:Hfound.
  - by apply IH' in Hin.
  - apply IH' in Hin as [Hin|?]; [|by right].
    apply elem_of_dict_set in Hin as [Heq|?]; [|by left].
    injection Heq as -> ->. right. exists [], later. split; [done|].
    intros y Hy. by apply Hsound.
Qed.

Lemma find_duplicate_materials_entries materials c ds :
  (c, ds) ∈ find_duplicate_materials scene materials →
  ds ≠ []
  ∧ ∀ x, x ∈ ds →
      compare_material_properties scene (Some c) (Some x) = true
      ∧ ∃ l1 l2, materials = l1 ++ c :: l2 ∧ x ∈ l2.
Proof.
  intros Hin.
  destruct (find_duplicate_materials_grouped materials)
    as (p & _ & _ & _ & _ & _ & He).
  destruct (He c ds Hin) as [Hne Hcmp]. split; [done|].
  intros x Hx. split; [by apply Hcmp|].
  apply group_loop_entries in Hin as [Hin|(l1 & l2 & -> & Hl2)].
  - by apply elem_of_nil in Hin.
  - exists l1, l2. split; [done|]. by apply Hl2.
Qed.

End Grouper.

(** C3. Three pairwise equal materials [A, B, C] give the single class
    [A -> [B, C]]. In general every class in the result has a non-empty
    duplicate list, its key stands in the input before each of its
    duplicates and matches each of them; and a material that matches no
    material of the input is neither a key nor a duplicate. *)
Theorem first_member_becomes_canonical scene :
  (∀ A B C : material,
     compare_material_properties scene (Some A) (Some B) = true →
     compare_material_properties scene (Some A) (Some C) = true →
     compare_material_properties scene (Some B) (Some C) = true →
     find_duplicate_materials scene [A; B; C] = [(A, [B; C])])
  ∧ (∀ materials c ds,
       (c, ds) ∈ find_duplicate_materials scene materials →
       ds ≠ []
       ∧ ∀ x, x ∈ ds →
           compare_material_properties scene (Some c) (Some x) = true
           ∧ ∃ l1 l2, materials = l1 ++ c :: l2 ∧ x ∈ l2)
  ∧ (∀ materials m,
       (∀ x, x ∈ materials →
          compare_material_properties scene (Some m) (Some x) = false
          ∧ compare_material_properties scene (Some x) (Some m) = false) →
       ∀ c ds, (c, ds) ∈ find_duplicate_materials scene materials →
               m ≠ c ∧ m ∉ ds).
Proof.
  split_and!.
  - intros A B C HAB HAC HBC.
    pose proof (compare_true_ne _ _ _ HAB). pose proof (compare_true_ne _ _ _ HAC).
    pose proof (compare_true_ne _ _ _ HBC).
    unfold find_duplicate_materials.
    rewrite group_loop_cons, decide_False by set_solver.
    rewrite scan_later_cons, decide_False, HAB by set_solver.
    rewrite scan_later_cons, decide_False, HAC by set_solver.
    cbn [scan_later app]. unfold dict_set. cbn [existsb app].
    rewrite group_loop_cons, decide_True by set_solver.
    rewrite group_loop_cons, decide_True by set_solver.
    done.
  - apply find_duplicate_materials_entries.
  - intros materials m Hnone c ds Hin.
    destruct (find_duplicate_materials_entries scene materials c ds Hin)
      as [Hne Hds].
    split.
    + intros ->. destruct ds as [|x ds']; [done|].
      destruct (Hds x) as (Hcmp & l1 & l2 & -> & Hx); [by left|].
      destruct (Hnone x) as [Hf _]; [|congruence].
      apply elem_of_app. right. by right.
    + intros Hm. destruct (Hds m Hm) as (Hcmp & l1 & l2 & -> & _).
      destruct (Hnone c) as [_ Hf]; [|congruence].
      apply elem_of_app. right. by left.
Qed.

Lemma first_member_becomes_canonical_witness :
  find_duplicate_materials copies_scene [0; 1; 2] = [(0, [1; 2])]
  ∧ (compare_material_properties pairs_scene (Some 0) (Some 1) = true
     ∧ ∃ l1 l2, [0; 1; 2] = l1 ++ 0 :: l2 ∧ 1 ∈ l2)
  ∧ (2 ≠ 0 ∧ 2 ∉ [1]).
Proof.
  assert (find_duplicate_materials pairs_scene [0; 1; 2] = [(0, [1])]) as Hrun
    by (vm_compute; reflexivity).
  destruct (first_member_becomes_canonical copies_scene) as (H1 & _).
  destruct (first_member_becomes_canonical pairs_scene) as (_ & H2 & H3).
  split; [|split].
  - apply H1; reflexivity.
  - apply (H2 [0; 1; 2] 0 [1]); [rewrite Hrun|]; left.
  - apply (H3 [0; 1; 2] 2).
    + intros x Hx.
      repeat (apply elem_of_cons in Hx as [->|Hx]; [split; reflexivity|]).
      by apply elem_of_nil in Hx.
    + rewrite Hrun. left.
Defined.

(** C10. In the mapping returned by the grouper no material is listed
    twice as a duplicate, be it in one list or in two, no key is listed as
    a duplicate, and no key occurs twice. *)
Theorem grouper_roles_are_disjoint scene (materials : list material) :
  NoDup (mjoin (find_duplicate_materials scene materials).*2)
  ∧ (∀ c, c ∈ (find_duplicate_materials scene materials).*1 →
          c ∉ mjoin (find_duplicate_materials scene materials).*2)
  ∧ NoDup (find_duplicate_materials scene materials).*1.
Proof.
  destruct (find_duplicate_materials_grouped scene materials)
    as (p & Hk & Hd & Hkd & _).
  done.
Qed.

(** ** The reference remapper *)

Lemma slot_index_Some target slots i :
  slot_index target slots = Some i → slots !! i = Some (Some target).
Proof.
  unfold slot_index. intros ([j x] & Hfind & ->)%fmap_Some.
  apply list_find_Some in Hfind as (Hl & -> & _). done.
Qed.

Lemma map_duplicates_mapped slots duplicates c ds original_idx dupe_list acc :
  (c, ds) ∈ duplicates →
  slot_index c slots = Some original_idx →
  (∀ d, d ∈ dupe_list → d ∈ ds) →
  mapped slots duplicates acc →
  mapped slots duplicates (map_duplicates slots original_idx dupe_list acc).
Proof.
  intros Hc Hidx. revert acc.
  induction dupe_list as [|d rest IH]; intros acc Hsub Hacc; [done|].
  unfold map_duplicates. cbn [foldl]. apply IH.
  { intros x Hx. apply Hsub. by right. }
  destruct (slot_index d slots) as [k|] eqn:Hk; [|done].
  destruct Hacc as [Hmap Hdom]. split; cbn.
  - intros k' v. rewrite lookup_insert. case_decide as Heq.
    + intros [= <-]. subst k'. exists c, ds, d. split_and!; try done.
      apply Hsub. by left.
    + apply Hmap.
  - intros k'. rewrite elem_of_union, elem_of_singleton, Hdom, lookup_insert.
    case_decide as Heq; [|naive_solver]. subst k'. split; [by eexists|by left].
Qed.

Lemma build_mapping_mapped slots duplicates :
  mapped slots duplicates (build_mapping slots duplicates).
Proof.
  unfold build_mapping.
  assert (∀ l acc, (∀ e, e ∈ l → e ∈ duplicates) →
            mapped slots duplicates acc →
            mapped slots duplicates
              (foldl (fun acc '(original, dupe_list) =>
                        match slot_index original slots with
                        | None => acc
                        | Some original_idx =>
                            map_duplicates slots original_idx dupe_list acc
                        end) acc l)) as Hgen.
  { induction l as [|[c ds] l IH]; intros acc Hsub Hacc; [done|].
    cbn [foldl]. apply IH.
    { intros e He. apply Hsub. by right. }
    destruct (slot_index c slots) as [oi|] eqn:Hoi; [|done].
    eapply map_duplicates_mapped; try done. apply Hsub. by left. }
  apply Hgen; [done|]. split.
  - intros k v Hk. cbn in Hk. by rewrite lookup_empty in Hk.
  - intros k. cbn. rewrite lookup_empty. split; [set_solver|by intros [? ?]].
Qed.

(** One removal: a face that does not point at the removed slot keeps its
    slot entry. *)
Lemma materials_pop_resolved idx mesh k g :
  mesh_faces mesh !! k = Some g → g ≠ idx →
  ∃ g', mesh_faces (materials_pop idx mesh) !! k = Some g'
        ∧ resolved (materials_pop idx mesh) g' = resolved mesh g
        ∧ (g < idx → g' = g) ∧ (idx < g → idx ≤ g').
Proof.
  intros Hk Hne. unfold materials_pop, resolved. cbn.
  rewrite list_lookup_fmap, Hk. cbn.
  destruct (decide (g < idx)) as [Hlt|Hge].
  - rewrite bool_decide_eq_false_2 by lia.
    exists g. split_and!; [done| |done|lia]. by apply list_lookup_delete_lt.
  - rewrite bool_decide_eq_true_2 by lia.
    exists (pred g). split_and!; [done| |lia|lia].
    rewrite list_lookup_delete_ge by lia. f_equal. lia.
Qed.

Lemma remove_slots_cons idx l mesh n :
  remove_slots (idx :: l) mesh n
  = if (idx <? length (mesh_materials mesh))%nat
    then remove_slots l (materials_pop idx mesh) (S n)
    else remove_slots l mesh n.
Proof. unfold remove_slots. cbn [foldl]. by destruct (idx <? _)%nat. Qed.

Lemma remove_slots_resolved l mesh n mesh' n' :
  StronglySorted descending l → NoDup l →
  remove_slots l mesh n = (mesh', n') →
  ∀ k g, mesh_faces mesh !! k = Some g → g ∉ l →
         ∃ g', mesh_faces mesh' !! k = Some g'
               ∧ resolved mesh' g' = resolved mesh g.
Proof.
  revert mesh n.
  induction l as [|idx l IH]; intros mesh n Hsorted Hnodup Hrun k g Hk Hg.
  - injection Hrun as <- <-. by exists g.
  - apply StronglySorted_inv in Hsorted as [Hsorted Hall].
    apply NoDup_cons in Hnodup as [Hidx Hnodup].
    assert (∀ y, y ∈ l → y < idx) as Hbelow.
    { intros y Hy. rewrite Forall_forall in Hall. specialize (Hall y Hy).
      unfold descending in Hall. destruct (decide (y = idx)) as [->|?]; [done|lia]. }
    apply not_elem_of_cons in Hg as [Hne Hg].
    rewrite remove_slots_cons in Hrun.
    destruct (idx <? length (mesh_materials mesh))%nat.
    + destruct (materials_pop_resolved idx mesh k g Hk Hne)
        as (g1 & Hk1 & Hres & Hlow & Hhigh).
      destruct (IH _ _ Hsorted Hnodup Hrun k g1 Hk1) as (g' & Hk' & Hres').
      * intros Hin. specialize (Hbelow _ Hin).
        destruct (decide (g < idx)) as [Hlt|Hge]; [rewrite Hlow in Hin by done; done|].
        specialize (Hhigh ltac:(lia)). lia.
      * exists g'. split; [done|]. by rewrite Hres'.
    + by apply (IH _ _ Hsorted Hnodup Hrun).
Qed.

Lemma sorted_reverse_sorted s : StronglySorted descending (sorted_reverse s).
Proof.
  unfold sorted_reverse. apply StronglySorted_merge_sort.
  - intros x y z. unfold descending. lia.
  - intros x y. unfold descending. lia.
Qed.

Lemma sorted_reverse_NoDup s : NoDup (sorted_reverse s).
Proof.
  unfold sorted_reverse. rewrite merge_sort_Permutation. apply NoDup_elements.
Qed.

Lemma elem_of_sorted_reverse s x : x ∈ sorted_reverse s ↔ x ∈ s.
Proof.
  unfold sorted_reverse. by rewrite merge_sort_Permutation, elem_of_elements.
Qed.

Section Remapper.

Variable scene : material -> Attrs.

(** The face rewrite sends every index to one that is kept and that shows
    an equivalent material. *)
Lemma reassign_target slots duplicates processed material_mapping materials_to_remove f :
  grouped scene duplicates processed →
  mapped slots duplicates (material_mapping, materials_to_remove) →
  (default f (material_mapping !! f) ∉ materials_to_remove)
  ∧ same_look scene (slots !! f) (slots !! default f (material_mapping !! f)).
Proof.
  intros (_ & _ & Hkd & _ & _ & He) [Hmap Hdom]. cbn in Hmap, Hdom.
  destruct (material_mapping !! f) as [v|] eqn:Hf; cbn.
  - destruct (Hmap f v Hf) as (c & ds & d & Hin & Hd & Hv & Hk).
    apply slot_index_Some in Hv, Hk. split.
    + intros [w Hw]%Hdom.
      destruct (Hmap v w Hw) as (c' & ds' & d' & Hin' & Hd' & _ & Hk').
      apply slot_index_Some in Hk'. rewrite Hv in Hk'. injection Hk' as <-.
      apply (Hkd c).
      * apply list_elem_of_fmap. by exists (c, ds).
      * apply list_elem_of_join. exists ds'. split; [done|].
        apply list_elem_of_fmap. by exists (c', ds').
    + right. exists d, c. split_and!; [done|done|]. by apply (He c ds).
  - split; [|by left]. intros [w Hw]%Hdom. congruence.
Qed.

End Remapper.

(** C1. When the operator rewrites a mesh, every face still has a slot to
    point at, and that slot shows what the face showed before: the same
    slot entry, or the material that the comparator matched with it. The
    indices of the faces follow the slots that move when the host removes
    a slot. *)
Theorem faces_keep_their_material scene (mesh mesh' : Mesh) (removed : nat) :
  process_mesh scene mesh = Rewritten mesh' removed →
  ∀ k f, mesh_faces mesh !! k = Some f →
         ∃ f', mesh_faces mesh' !! k = Some f'
               ∧ same_look scene (resolved mesh f) (resolved mesh' f').
Proof.
  unfold process_mesh. intros Hrun k f Hk.
  destruct (mesh_materials mesh) as [|slot slots] eqn:Hslots; [done|].
  rewrite <- Hslots in *. clear Hslots slot slots.
  destruct (length _ <? 2)%nat; [done|].
  destruct (find_duplicate_materials_grouped scene (omap id (mesh_materials mesh)))
    as (processed & Hgrouped).
  destruct (find_duplicate_materials scene _) as [|entry duplicates] eqn:Hdups; [done|].
  rewrite <- Hdups in *. clear Hdups entry duplicates.
  pose proof (build_mapping_mapped (mesh_materials mesh)
                (find_duplicate_materials scene (omap id (mesh_materials mesh))))
    as Hmapped.
  destruct (build_mapping _ _) as [material_mapping materials_to_remove].
  destruct (decide (material_mapping = ∅)); [done|].
  destruct (remove_slots _ _ 0) as [mesh1 removed1] eqn:Hremove.
  injection Hrun as -> ->.
  destruct (reassign_target scene _ _ _ _ _ f Hgrouped Hmapped) as [Hkept Hlook].
  destruct (remove_slots_resolved _ _ _ _ _ (sorted_reverse_sorted _)
              (sorted_reverse_NoDup _) Hremove k
              (default f (material_mapping !! f))) as (f' & Hk' & Hres).
  - cbn. unfold reassign. by rewrite list_lookup_fmap, Hk.
  - by rewrite elem_of_sorted_reverse.
  - exists f'. split; [done|]. rewrite Hres. exact Hlook.
Qed.

Example four_slots_rewritten :
  process_mesh pairs_scene four_slots
  = Rewritten (mkMesh [Some 0; Some 2] [0; 0; 1; 1; 0; 1]) 2.
Proof. vm_compute. reflexivity. Qed.

Lemma faces_keep_their_material_witness :
  (∃ f', [0; 0; 1; 1; 0; 1] !! 1 = Some f'
         ∧ same_look pairs_scene (resolved four_slots 1)
             (resolved (mkMesh [Some 0; Some 2] [0; 0; 1; 1; 0; 1]) f'))
  ∧ (∃ f', [0; 0; 1; 1; 0; 1] !! 2 = Some f'
           ∧ same_look pairs_scene (resolved four_slots 2)
               (resolved (mkMesh [Some 0; Some 2] [0; 0; 1; 1; 0; 1]) f')).
Proof.
  assert (process_mesh pairs_scene four_slots
          = Rewritten (mkMesh [Some 0; Some 2] [0; 0; 1; 1; 0; 1]) 2) as Hrun
    by (vm_compute; reflexivity).
  split.
  - apply (faces_keep_their_material pairs_scene four_slots _ 2 Hrun 1 1).
    reflexivity.
  - apply (faces_keep_their_material pairs_scene four_slots _ 2 Hrun 2 2).
    reflexivity.
Defined.

(** C2 fails on a mesh that holds a duplicate in two slots. The slot
    lookup of lines 371-374 stops at the first slot of the duplicate, so
    only that slot is removed: from [A, B, B] the operator leaves [A, B],
    and B is still a duplicate of A. *)
Lemma repeated_slot_keeps_duplicate :
  process_mesh copies_scene repeated_slot
  = Rewritten (mkMesh [Some 0; Some 1] [0; 0; 1]) 1
  ∧ compare_material_properties copies_scene (Some 0) (Some 1) = true.
Proof. split; vm_compute; reflexivity. Qed.

(** ** What the operator leaves when no material sits in two slots *)

Section Completeness.

Variable scene : material -> Attrs.

(** One turn of the outer loop of the grouper. *)
Lemma group_loop_turn mat1 later d processed :
  grouped scene d processed →
  ∃ d' processed',
    group_loop scene (mat1 :: later) d processed
    = group_loop scene later d' processed'
    ∧ grouped scene d' processed'
    ∧ ((mat1 ∈ processed ∧ d' = d ∧ processed' = processed)
       ∨ ((mat1 ∉ processed)
          ∧ ∃ found,
              (∀ x, x ∈ later → x ∉ found → x ∉ processed →
                 compare_material_properties scene (Some mat1) (Some x) = false)
              ∧ ((found = [] ∧ d' = d ∧ processed' = processed)
                 ∨ (d' = d ++ [(mat1, found)]
                    ∧ processed' = {[mat1]} ∪ (list_to_set found ∪ processed))))).
Proof.
  intros Hg. rewrite group_loop_cons.
  destruct (decide (mat1 ∈ processed)) as [Hin|Hnot].
  { exists d, processed. split_and!; [done|done|]. by left. }
  destruct (scan_later_spec scene mat1 later [] processed)
    as (found & -> & Hnd & Hsound & Hcomplete).
  cbn. destruct found as [|x found'] eqn:Hfound.
  - exists d, processed. split_and!.
    + f_equal. cbn. set_solver.
    + done.
    + right. split; [done|]. exists []. split; [done|]. by left.
  - rewrite <- Hfound in *.
    assert (grouped scene (dict_set mat1 found d)
              ({[mat1]} ∪ (list_to_set found ∪ processed))) as Hg'.
    { apply grouped_add; try done; [by rewrite Hfound|].
      intros y Hy. by destruct (Hsound y Hy) as (_ & ? & ?). }
    assert (dict_set mat1 found d = d ++ [(mat1, found)]) as Hset.
    { apply dict_set_fresh. destruct Hg as (_ & _ & _ & Hkp & _). intros ?. by apply Hnot, Hkp. }
    exists (d ++ [(mat1, found)]), ({[mat1]} ∪ (list_to_set found ∪ processed)).
    rewrite <- Hset. split_and!.
    + done.
    + done.
    + right. split; [done|]. exists found. split; [done|]. by right.
Qed.

Lemma group_loop_keeps materials d processed x :
  grouped scene d processed →
  x ∈ mjoin d.*2 → x ∈ mjoin (group_loop scene materials d processed).*2.
Proof.
  revert d processed. induction materials as [|mat1 later IH]; intros d p Hg Hx; [done|].
  destruct (group_loop_turn mat1 later d p Hg) as (d' & p' & -> & Hg' & Hturn).
  apply IH; [done|].
  destruct Hturn as [(_ & -> & _) | (_ & found & _ & [(_ & -> & _) | (-> & _)])];
    try done.
  rewrite fmap_app, join_app. apply elem_of_app. by left.
Qed.

(** Of two different materials of a list without repetition, neither of
    them listed as a duplicate by the grouper, the earlier does not match
    the later. *)
Lemma group_loop_complete materials d processed :
  NoDup materials →
  grouped scene d processed →
  (∀ z, z ∈ processed → z ∈ d.*1 ∨ z ∈ mjoin d.*2) →
  (∀ z, z ∈ materials → z ∉ d.*1) →
  ∀ l1 x l2 y,
    materials = l1 ++ x :: l2 → y ∈ l2 →
    x ∉ mjoin (group_loop scene materials d processed).*2 →
    y ∉ mjoin (group_loop scene materials d processed).*2 →
    compare_material_properties scene (Some x) (Some y) = false.
Proof.
  revert d processed.
  induction materials as [|mat1 later IH];
    intros d p Hnd Hg Hp Hkeys l1 x l2 y Hsplit Hy Hx Hy'.
  { by destruct l1. }
  apply NoDup_cons in Hnd as [Hmat1 Hnd].
  destruct (group_loop_turn mat1 later d p Hg) as (d' & p' & Hrun & Hg' & Hturn).
  rewrite Hrun in Hx, Hy'.
  assert (∀ z, z ∈ mjoin d.*2 → z ∈ mjoin d'.*2) as Hgrow.
  { intros z Hz.
    destruct Hturn as [(_ & -> & _) | (_ & found & _ & [(_ & -> & _) | (-> & _)])];
      try done.
    rewrite fmap_app, join_app. apply elem_of_app. by left. }
  destruct l1 as [|m l1']; injection Hsplit as -> ->.
  - (* the earlier one is the material of this turn *)
    assert (∀ z, z ∈ p → z ∈ l2 ∨ z = x →
              z ∈ mjoin (group_loop scene l2 d' p').*2) as Hmarked.
    { intros z Hz Hin. destruct (Hp z Hz) as [Hk|Hd].
      - exfalso. apply (Hkeys z); [|done].
        destruct Hin as [?| ->]; [by right|by left].
      - by apply group_loop_keeps, Hgrow. }
    destruct Hturn as [(Hin & _) | (Hnot & found & Hcomplete & Hcase)].
    { exfalso. apply Hx, Hmarked; [done|by right]. }
    apply Hcomplete; [done| |].
    + intros Hfound. apply Hy'. apply group_loop_keeps; [done|].
      destruct Hcase as [(-> & _) | (-> & _)]; [by apply elem_of_nil in Hfound|].
      rewrite fmap_app, join_app. apply elem_of_app. right. cbn.
      by rewrite app_nil_r.
    + intros Hin. apply Hy', Hmarked; [done|by left].
  - (* both are later materials *)
    apply (IH d' p' Hnd Hg') with (l1 := l1') (l2 := l2); try done.
    + intros z Hz.
      destruct Hturn as [(_ & -> & ->) | (_ & found & _ & [(_ & -> & ->) | (-> & ->)])];
        [by apply Hp|by apply Hp|].
      rewrite !fmap_app, join_app. cbn. rewrite app_nil_r.
      apply elem_of_union in Hz as [->%elem_of_singleton|Hz].
      { left. apply elem_of_app. right. by left. }
      apply elem_of_union in Hz as [Hz%elem_of_list_to_set|Hz].
      { right. apply elem_of_app. by right. }
      destruct (Hp z Hz); [left|right]; apply elem_of_app; by left.
    + intros z Hz.
      destruct Hturn as [(_ & -> & _) | (_ & found & _ & [(_ & -> & _) | (-> & _)])];
        [apply Hkeys; by right|apply Hkeys; by right|].
      rewrite fmap_app. intros [Hk | ->%list_elem_of_singleton]%elem_of_app.
      * apply (Hkeys z); [by right|done].
      * done.
Qed.

Lemma find_duplicate_materials_complete materials l1 x l2 y :
  NoDup materials →
  materials = l1 ++ x :: l2 → y ∈ l2 →
  x ∉ mjoin (find_duplicate_materials scene materials).*2 →
  y ∉ mjoin (find_duplicate_materials scene materials).*2 →
  compare_material_properties scene (Some x) (Some y) = false.
Proof.
  intros Hnd. unfold find_duplicate_materials.
  apply (group_loop_complete materials [] ∅ Hnd (grouped_empty scene)).
  - intros z Hz. by apply elem_of_empty in Hz.
  - intros z _ Hz. by apply elem_of_nil in Hz.
Qed.

End Completeness.

Lemma map_duplicates_keeps slots original_idx dupe_list acc k :
  k ∈ acc.2 → k ∈ (map_duplicates slots original_idx dupe_list acc).2.
Proof.
  revert acc. induction dupe_list as [|d rest IH]; intros acc Hk; [done|].
  unfold map_duplicates. cbn [foldl]. apply IH.
  destruct (slot_index d slots); [|done]. cbn. apply elem_of_union. by right.
Qed.

Lemma map_duplicates_covers slots original_idx dupe_list acc d k :
  d ∈ dupe_list → slot_index d slots = Some k →
  k ∈ (map_duplicates slots original_idx dupe_list acc).2.
Proof.
  revert acc. induction dupe_list as [|d' rest IH]; intros acc Hd Hk.
  { by apply elem_of_nil in Hd. }
  apply elem_of_cons in Hd as [<-|Hd].
  - unfold map_duplicates. cbn [foldl]. apply map_duplicates_keeps.
    rewrite Hk. cbn. apply elem_of_union. left. by apply elem_of_singleton.
  - unfold map_duplicates. cbn [foldl]. by apply IH.
Qed.

Lemma build_mapping_covers slots duplicates c ds d v k :
  (c, ds) ∈ duplicates → d ∈ ds →
  slot_index c slots = Some v → slot_index d slots = Some k →
  k ∈ (build_mapping slots duplicates).2.
Proof.
  intros Hin Hd Hv Hk. unfold build_mapping.
  set (step := fun (acc : gmap nat nat * gset nat) (e : material * list material) =>
                 let '(original, dupe_list) := e in
                 match slot_index original slots with
                 | None => acc
                 | Some original_idx =>
                     map_duplicates slots original_idx dupe_list acc
                 end).
  assert (∀ l acc, k ∈ acc.2 → k ∈ (foldl step acc l).2) as Hkeeps.
  { induction l as [|[c' ds'] l IH]; intros acc Hacc; [done|].
    cbn [foldl]. apply IH. unfold step.
    destruct (slot_index c' slots); [|done]. by apply map_duplicates_keeps. }
  assert (∀ l acc, (c, ds) ∈ l → k ∈ (foldl step acc l).2) as Hcovers.
  { induction l as [|e l IH]; intros acc Hl; [by apply elem_of_nil in Hl|].
    apply elem_of_cons in Hl as [<-|Hl]; cbn [foldl]; [|by apply IH].
    apply Hkeeps. unfold step. rewrite Hv. by eapply map_duplicates_covers. }
  by apply Hcovers.
Qed.

Lemma origin_cons idx l j :
  origin (idx :: l) j
  = if (origin l j <? idx)%nat then origin l j else S (origin l j).
Proof. reflexivity. Qed.

Lemma remove_slots_origin l mesh n mesh' n' j :
  remove_slots l mesh n = (mesh', n') →
  mesh_materials mesh' !! j = mesh_materials mesh !! origin l j.
Proof.
  revert mesh n. induction l as [|idx l IH]; intros mesh n Hrun.
  - by injection Hrun as <- <-.
  - rewrite remove_slots_cons in Hrun. rewrite origin_cons.
    destruct (Nat.ltb_spec idx (length (mesh_materials mesh))) as [Hlt|Hge].
    + rewrite (IH _ _ Hrun). unfold materials_pop. cbn [mesh_materials].
      destruct (Nat.ltb_spec (origin l j) idx).
      * by apply list_lookup_delete_lt.
      * by apply list_lookup_delete_ge.
    + rewrite (IH _ _ Hrun).
      destruct (Nat.ltb_spec (origin l j) idx); [done|].
      rewrite !lookup_ge_None_2; [done|lia|lia].
Qed.

Lemma origin_mono l j1 j2 : j1 < j2 → origin l j1 < origin l j2.
Proof.
  intros Hlt. induction l as [|idx l IH]; [done|]. rewrite !origin_cons.
  destruct (Nat.ltb_spec (origin l j1) idx), (Nat.ltb_spec (origin l j2) idx); lia.
Qed.

Lemma origin_kept l j :
  StronglySorted descending l → origin l j ∉ l.
Proof.
  induction l as [|idx l IH]; intros Hsorted.
  { apply not_elem_of_nil. }
  rewrite origin_cons.
  apply StronglySorted_inv in Hsorted as [Hsorted Hall].
  rewrite Forall_forall in Hall. unfold descending in Hall.
  specialize (IH Hsorted).
  destruct (Nat.ltb_spec (origin l j) idx) as [Hlt|Hge].
  - apply not_elem_of_cons. split; [lia|done].
  - apply not_elem_of_cons. split; [lia|].
    intros Hin. specialize (Hall _ Hin). lia.
Qed.

Lemma slot_positions_unique (slots : list (option material)) i j a :
  NoDup (omap id slots) →
  slots !! i = Some (Some a) → slots !! j = Some (Some a) → i = j.
Proof.
  revert i j. induction slots as [|e slots IH]; intros i j Hnd Hi Hj; [done|].
  assert (∀ k, slots !! k = Some (Some a) → a ∈ omap id slots) as Hin.
  { intros k Hk. apply list_elem_of_omap. exists (Some a). split; [|done].
    by eapply list_elem_of_lookup_2. }
  destruct i as [|i], j as [|j]; cbn in Hi, Hj; [done| | |].
  - injection Hi as ->. cbn in Hnd. apply NoDup_cons in Hnd as [Hnot _].
    exfalso. by eapply Hnot, Hin.
  - injection Hj as ->. cbn in Hnd. apply NoDup_cons in Hnd as [Hnot _].
    exfalso. by eapply Hnot, Hin.
  - f_equal. apply IH; [|done|done].
    cbn in Hnd. destruct e; [|done]. by apply NoDup_cons in Hnd as [_ ?].
Qed.

Lemma slot_index_of_position (slots : list (option material)) i a :
  NoDup (omap id slots) →
  slots !! i = Some (Some a) → slot_index a slots = Some i.
Proof.
  intros Hnd Hi. unfold slot_index.
  assert (list_find (fun mat => mat = Some a) slots = Some (i, Some a)) as ->; [|done].
  apply list_find_Some. split_and!; [done|done|].
  intros j y Hj Hlt ->. assert (i = j) by by eapply slot_positions_unique. lia.
Qed.

Lemma slot_index_is_Some (slots : list (option material)) a :
  a ∈ omap id slots → is_Some (slot_index a slots).
Proof.
  intros (e & He & Hid)%list_elem_of_omap. cbn in Hid. subst e.
  unfold slot_index. apply fmap_is_Some.
  by apply (list_find_elem_of (fun mat => mat = Some a) slots (Some a)).
Qed.

Lemma omap_split (slots : list (option material)) i j a b :
  slots !! i = Some (Some a) → slots !! j = Some (Some b) → i < j →
  ∃ l1 l2, omap id slots = l1 ++ a :: l2 ∧ b ∈ l2.
Proof.
  intros Hi Hj Hlt.
  exists (omap id (take i slots)), (omap id (drop (S i) slots)). split.
  - rewrite <- (take_drop_middle slots i (Some a) Hi) at 1.
    by rewrite omap_app.
  - apply list_elem_of_omap. exists (Some b). split; [|done].
    apply list_elem_of_lookup. exists (j - S i).
    rewrite lookup_drop. rewrite <- Hj. f_equal. lia.
Qed.

Section NoRepeatedSlot.

Variable scene : material -> Attrs.

(** Two slots that the operator does not remove hold materials that do
    not match. *)
Lemma kept_slots_differ slots i j a b :
  NoDup (omap id slots) →
  i < j → slots !! i = Some (Some a) → slots !! j = Some (Some b) →
  i ∉ (build_mapping slots (find_duplicate_materials scene (omap id slots))).2 →
  j ∉ (build_mapping slots (find_duplicate_materials scene (omap id slots))).2 →
  compare_material_properties scene (Some a) (Some b) = false.
Proof.
  intros Hnd Hlt Hi Hj Hki Hkj.
  assert (∀ k x, slots !! k = Some (Some x) →
            k ∉ (build_mapping slots
                   (find_duplicate_materials scene (omap id slots))).2 →
            x ∉ mjoin (find_duplicate_materials scene (omap id slots)).*2) as Hkept.
  { intros k x Hk Hnot (ds & Hx & ([c ds'] & -> & Hin)%list_elem_of_fmap)%list_elem_of_join.
    cbn in Hx.
    destruct (find_duplicate_materials_entries scene _ _ _ Hin) as [_ Hds].
    destruct (Hds x Hx) as (_ & l1 & l2 & Hsplit & _).
    destruct (slot_index_is_Some slots c) as [v Hv].
    { rewrite Hsplit. apply elem_of_app. right. by left. }
    apply Hnot. eapply build_mapping_covers; try done.
    by apply slot_index_of_position. }
  destruct (omap_split slots i j a b Hi Hj Hlt) as (l1 & l2 & Hsplit & Hb).
  eapply find_duplicate_materials_complete; try done; by eapply Hkept.
Qed.

Lemma slots_after_ordered mesh i j a b :
  NoDup (omap id (mesh_materials mesh)) →
  i < j →
  slots_after scene mesh !! i = Some (Some a) →
  slots_after scene mesh !! j = Some (Some b) →
  compare_material_properties scene (Some a) (Some b) = false.
Proof.
  intros Hnd Hlt. unfold slots_after, process_mesh.
  pose proof (kept_slots_differ (mesh_materials mesh)) as Hkept.
  pose proof (build_mapping_mapped (mesh_materials mesh)
                (find_duplicate_materials scene (omap id (mesh_materials mesh))))
    as [_ Hdom].
  destruct (mesh_materials mesh) as [|slot slots] eqn:Hslots; [done|].
  rewrite <- Hslots in *. clear Hslots slot slots.
  destruct (Nat.ltb_spec (length (omap id (mesh_materials mesh))) 2) as [Hfew|_].
  { intros Hi Hj.
    destruct (omap_split _ i j a b Hi Hj Hlt) as (l1 & [|b' l2] & Hsplit & Hb).
    - by apply elem_of_nil in Hb.
    - rewrite Hsplit, length_app in Hfew. cbn in Hfew. lia. }
  destruct (find_duplicate_materials scene _) as [|entry duplicates] eqn:Hdups.
  { intros Hi Hj. apply (Hkept i j a b); try done; cbn; apply not_elem_of_empty. }
  rewrite <- Hdups in *. clear Hdups entry duplicates.
  destruct (build_mapping _ _) as [material_mapping materials_to_remove].
  cbn in Hdom, Hkept.
  destruct (decide (material_mapping = ∅)) as [->|_].
  { intros Hi Hj.
    apply (Hkept i j a b); try done; intros [w Hw]%Hdom; by rewrite lookup_empty in Hw. }
  destruct (remove_slots _ _ 0) as [mesh1 removed1] eqn:Hremove.
  rewrite !(remove_slots_origin _ _ _ _ _ _ Hremove). cbn [mesh_materials].
  intros Hi Hj.
  apply (Hkept (origin (sorted_reverse materials_to_remove) i)
               (origin (sorted_reverse materials_to_remove) j) a b); try done.
  - by apply origin_mono.
  - rewrite <- elem_of_sorted_reverse. apply origin_kept, sorted_reverse_sorted.
  - rewrite <- elem_of_sorted_reverse. apply origin_kept, sorted_reverse_sorted.
Qed.

(** When no material sits in two slots of a mesh, the slot list that the
    operator leaves holds no two materials that the comparator matches. *)
Lemma no_duplicates_left_without_repeated_slot mesh i j a b :
  NoDup (omap id (mesh_materials mesh)) →
  i ≠ j →
  slots_after scene mesh !! i = Some (Some a) →
  slots_after scene mesh !! j = Some (Some b) →
  compare_material_properties scene (Some a) (Some b) = false.
Proof.
  intros Hnd Hne Hi Hj. destruct (decide (i < j)) as [Hlt|Hge].
  - by eapply slots_after_ordered.
  - rewrite compare_sym. eapply (slots_after_ordered mesh j i); try done. lia.
Qed.

End NoRepeatedSlot.

(** ** Early exits of the operator *)

Section EarlyExits.

Variable scene : material -> Attrs.

Lemma process_mesh_few_materials mesh :
  length (omap id (mesh_materials mesh)) < 2 → process_mesh scene mesh = Skipped.
Proof.
  intros Hfew. unfold process_mesh.
  destruct (mesh_materials mesh); [done|].
  by apply Nat.ltb_lt in Hfew as ->.
Qed.

Lemma length_omap_le {A B} (f : A → option B) l : length (omap f l) ≤ length l.
Proof. induction l as [|x l IH]; cbn; [done|]. destruct (f x); cbn; lia. Qed.

Lemma process_object_skips st obj :
  (obj_type obj = "MESH" →
   length (omap id (mesh_materials (meshes (host st) (obj_data obj)))) < 2) →
  process_object scene st obj
  = {| host := host st;
       removed_count := removed_count st;
       processed_objects :=
         processed_objects st + (if decide (obj_type obj = "MESH") then 1 else 0) |}.
Proof.
  intros Hfew. unfold process_object.
  destruct (String.eqb_spec (obj_type obj) "MESH") as [Hmesh|Hother]; cbn.
  - rewrite decide_True by done.
    rewrite process_mesh_few_materials by auto. f_equal. lia.
  - rewrite decide_False by done. destruct st. cbn. f_equal. lia.
Qed.

Lemma foldl_process_object_skips selected st :
  Forall (fun obj =>
            obj_type obj = "MESH" →
            length (omap id (mesh_materials (meshes (host st) (obj_data obj)))) < 2)
         selected →
  foldl (process_object scene) st selected
  = {| host := host st;
       removed_count := removed_count st;
       processed_objects :=
         processed_objects st
         + length (filter (fun obj => obj_type obj = "MESH") selected) |}.
Proof.
  revert st. induction selected as [|obj rest IH]; intros st Hall.
  - cbn. destruct st. cbn. f_equal. lia.
  - apply Forall_cons in Hall as [Hobj Hrest].
    rewrite filter_cons.
    cbn [foldl]. rewrite process_object_skips by done.
    rewrite IH by done. cbn [host removed_count processed_objects]. f_equal.
    destruct (decide (obj_type obj = "MESH")); cbn [length]; lia.
Qed.

End EarlyExits.

(** C9. The precondition failures end the work without an error: an empty
    selection, or a selection without a mesh object, cancels the operator
    and leaves every mesh as it was; a mesh with fewer than two materials
    is passed over; and when every selected mesh is like that the operator
    finishes with no slot removed, no mesh changed and no host call made
    (no switch to edit mode among them). A mesh with one slot is such a
    mesh. *)
Theorem precondition_failures_exit_cleanly scene (blender : Blender) :
  execute scene [] blender
  = (CANCELLED,
     {| host := {| meshes := meshes blender;
                   journal := journal blender ++ [Report "ERROR" "No objects selected!"] |};
        removed_count := 0; processed_objects := 0 |})
  ∧ (∀ selected,
       selected ≠ [] →
       Forall (fun obj => obj_type obj ≠ "MESH") selected →
       execute scene selected blender
       = (CANCELLED, {| host := blender; removed_count := 0; processed_objects := 0 |}))
  ∧ (∀ mesh,
       length (omap id (mesh_materials mesh)) < 2 →
       process_mesh scene mesh = Skipped)
  ∧ (∀ mesh,
       length (mesh_materials mesh) = 1 →
       process_mesh scene mesh = Skipped)
  ∧ (∀ selected,
       Exists (fun obj => obj_type obj = "MESH") selected →
       Forall (fun obj =>
                 obj_type obj = "MESH" →
                 length (omap id (mesh_materials (meshes blender (obj_data obj)))) < 2)
              selected →
       execute scene selected blender
       = (FINISHED,
          {| host := blender; removed_count := 0;
             processed_objects :=
               length (filter (fun obj => obj_type obj = "MESH") selected) |})).
Proof.
  split; [done|]. split; [|split; [|split]].
  - intros selected Hne Hnone. unfold execute.
    destruct selected as [|obj rest] eqn:Hsel; [done|]. rewrite <- Hsel in *.
    assert (filter (fun obj => obj_type obj = "MESH") selected = []) as ->; [|done].
    clear Hsel Hne. induction Hnone as [|o l Ho Hl IH]; [done|].
    rewrite filter_cons, decide_False by done. exact IH.
  - apply process_mesh_few_materials.
  - intros mesh Hone. apply process_mesh_few_materials.
    pose proof (length_omap_le id (mesh_materials mesh)). lia.
  - intros selected Hsome Hall. unfold execute.
    destruct selected as [|obj rest] eqn:Hsel; [by apply Exists_nil in Hsome|].
    rewrite <- Hsel in *.
    destruct (filter (fun obj => obj_type obj = "MESH") selected) as [|m ms] eqn:Hf.
    + exfalso. apply Exists_exists in Hsome as (o & Ho & Hmesh).
      assert (o ∈ filter (fun obj => obj_type obj = "MESH") selected) as Hin
        by by apply list_elem_of_filter.
      rewrite Hf in Hin. by apply elem_of_nil in Hin.
    + rewrite <- Hf. by rewrite foldl_process_object_skips.
Qed.

Lemma precondition_failures_exit_cleanly_witness :
  execute copies_scene [light] single_slot_host
  = (CANCELLED,
     {| host := single_slot_host; removed_count := 0; processed_objects := 0 |})
  ∧ process_mesh copies_scene (mkMesh [None; Some 0; None] [1; 1]) = Skipped
  ∧ process_mesh copies_scene one_slot = Skipped
  ∧ execute copies_scene [light; cube; cube] single_slot_host
    = (FINISHED,
       {| host := single_slot_host; removed_count := 0;
          processed_objects :=
            length (filter (fun obj => obj_type obj = "MESH") [light; cube; cube]) |}).
Proof.
  destruct (precondition_failures_exit_cleanly copies_scene single_slot_host)
    as (_ & H2 & H3 & H4 & H5).
  split; [|split; [|split]].
  - apply H2; [done|]. repeat constructor; by vm_compute.
  - apply H3. cbn. lia.
  - apply H4. reflexivity.
  - apply H5.
    + apply Exists_cons_tl, Exists_cons_hd. reflexivity.
    + repeat constructor; intros _; cbn; lia.
Defined.

(** ** The graph comparator: links *)

Lemma Qlist_eqb_Forall2 l1 l2 : Qlist_eqb l1 l2 = true ↔ Forall2 Qeq l1 l2.
Proof.
  revert l2. induction l1 as [|x l1 IH]; intros [|y l2]; cbn.
  - split; [constructor|done].
  - split; [done|inversion 1].
  - split; [done|inversion 1].
  - rewrite andb_true_iff, Qeq_bool_iff, IH. split.
    + intros [? ?]. by constructor.
    + inversion 1; subst. done.
Qed.

Lemma Qlist_eqb_refl l : Qlist_eqb l l = true.
Proof. induction l; cbn; [done|]. by rewrite Qeq_bool_refl. Qed.

Lemma Qlist_eqb_sym l1 l2 : Qlist_eqb l1 l2 = true → Qlist_eqb l2 l1 = true.
Proof.
  revert l2. induction l1 as [|x l1 IH]; intros [|y l2]; cbn; try done.
  intros [Hx Hl]%andb_true_iff. by rewrite (Qeq_bool_sym _ _ Hx), IH.
Qed.

Lemma Qlist_eqb_trans l1 l2 l3 :
  Qlist_eqb l1 l2 = true → Qlist_eqb l2 l3 = true → Qlist_eqb l1 l3 = true.
Proof.
  revert l2 l3. induction l1 as [|x l1 IH]; intros [|y l2] [|z l3]; cbn; try done.
  intros [Hx Hl]%andb_true_iff [Hy Hl']%andb_true_iff.
  by rewrite (Qeq_bool_trans _ _ _ Hx Hy), (IH _ _ Hl Hl').
Qed.

Lemma link_end_eqb_spec (e1 e2 : link_end) :
  link_end_eqb e1 e2 = true
  ↔ e1.1.1 = e2.1.1 ∧ Qlist_eqb e1.1.2 e2.1.2 = true ∧ e1.2 = e2.2.
Proof.
  unfold link_end_eqb. rewrite !andb_true_iff, !String.eqb_eq. tauto.
Qed.

Lemma link_end_eqb_refl e : link_end_eqb e e = true.
Proof. apply link_end_eqb_spec. by rewrite Qlist_eqb_refl. Qed.

Lemma link_end_eqb_sym e1 e2 : link_end_eqb e1 e2 = true → link_end_eqb e2 e1 = true.
Proof.
  rewrite !link_end_eqb_spec. intros (? & ? & ?).
  split_and!; [done| |done]. by apply Qlist_eqb_sym.
Qed.

Lemma link_end_eqb_trans e1 e2 e3 :
  link_end_eqb e1 e2 = true → link_end_eqb e2 e3 = true → link_end_eqb e1 e3 = true.
Proof.
  rewrite !link_end_eqb_spec. intros (? & ? & ?) (? & ? & ?).
  split_and!; [congruence| |congruence]. by eapply Qlist_eqb_trans.
Qed.

Lemma link_key_eqb_refl k : link_key_eqb k k = true.
Proof. unfold link_key_eqb. by rewrite !link_end_eqb_refl. Qed.

Lemma link_key_eqb_sym k1 k2 : link_key_eqb k1 k2 = true → link_key_eqb k2 k1 = true.
Proof.
  unfold link_key_eqb. intros [? ?]%andb_true_iff.
  apply andb_true_iff. split; by apply link_end_eqb_sym.
Qed.

Lemma link_key_eqb_trans k1 k2 k3 :
  link_key_eqb k1 k2 = true → link_key_eqb k2 k3 = true → link_key_eqb k1 k3 = true.
Proof.
  unfold link_key_eqb. intros [? ?]%andb_true_iff [? ?]%andb_true_iff.
  apply andb_true_iff. split; by eapply link_end_eqb_trans.
Qed.

Lemma link_key_eqb_same_ends link1 link2 :
  link_key_eqb (link_key_of link1) (link_key_of link2) = true
  ↔ same_link_ends link1 link2.
Proof.
  unfold link_key_eqb, same_link_ends, same_end, link_key_of. cbn.
  rewrite andb_true_iff, !link_end_eqb_spec. cbn.
  by rewrite !Qlist_eqb_Forall2.
Qed.

Lemma set_mem_exists k s :
  set_mem k s = true ↔ ∃ k', k' ∈ s ∧ link_key_eqb k k' = true.
Proof.
  unfold set_mem. rewrite existsb_exists.
  split; intros (k' & Hin & Heq); exists k'; by rewrite list_elem_of_In in *.
Qed.

Lemma set_mem_set_add k k' s :
  set_mem k (set_add k' s) = true
  ↔ set_mem k s = true ∨ link_key_eqb k k' = true.
Proof.
  unfold set_add. destruct (set_mem k' s) eqn:Hk'.
  - split; [by left|]. intros [?|Heq]; [done|].
    apply set_mem_exists in Hk' as (k'' & Hin & Heq').
    apply set_mem_exists. exists k''. split; [done|].
    by eapply link_key_eqb_trans.
  - rewrite !set_mem_exists. split.
    + intros (k'' & [Hin | ->%list_elem_of_singleton]%elem_of_app & Heq).
      * left. by exists k''.
      * by right.
    + intros [(k'' & Hin & Heq) | Heq].
      * exists k''. split; [|done]. apply elem_of_app. by left.
      * exists k'. split; [|done]. apply elem_of_app. right. by left.
Qed.

Lemma set_mem_link_set k links :
  set_mem k (link_set links) = true
  ↔ ∃ link, link ∈ links ∧ link_key_eqb k (link_key_of link) = true.
Proof.
  unfold link_set.
  assert (∀ acc,
            set_mem k (foldl (fun s link => set_add (link_key_of link) s) acc links)
            = true
            ↔ set_mem k acc = true
              ∨ ∃ link, link ∈ links ∧ link_key_eqb k (link_key_of link) = true)
    as Hgen.
  { induction links as [|link rest IH]; intros acc; cbn [foldl].
    - split; [by left|]. intros [?|(link & Hin & _)]; [done|].
      by apply elem_of_nil in Hin.
    - rewrite IH, set_mem_set_add. split.
      + intros [[?|?]|(link' & Hin & Heq)].
        * by left.
        * right. exists link. split; [by left|done].
        * right. exists link'. split; [by right|done].
      + intros [?|(link' & [->|Hin]%elem_of_cons & Heq)].
        * left. by left.
        * left. by right.
        * right. by exists link'. }
  rewrite Hgen. split; [|by right]. by intros [?|?].
Qed.

Lemma elem_of_link_set k links :
  k ∈ link_set links → ∃ link, link ∈ links ∧ link_key_eqb k (link_key_of link) = true.
Proof.
  intros Hin. apply set_mem_link_set, set_mem_exists.
  exists k. split; [done|]. apply link_key_eqb_refl.
Qed.

Lemma set_eqb_link_set links1 links2 :
  set_eqb (link_set links1) (link_set links2) = true
  ↔ (∀ l1, l1 ∈ links1 → ∃ l2, l2 ∈ links2 ∧ same_link_ends l1 l2)
    ∧ (∀ l2, l2 ∈ links2 → ∃ l1, l1 ∈ links1 ∧ same_link_ends l2 l1).
Proof.
  assert (∀ la lb,
            forallb (fun k => set_mem k (link_set lb)) (link_set la) = true
            ↔ ∀ l1, l1 ∈ la → ∃ l2, l2 ∈ lb ∧ same_link_ends l1 l2) as Hhalf.
  { intros la lb. rewrite forallb_forall. split.
    - intros Hall l1 Hl1.
      assert (set_mem (link_key_of l1) (link_set la) = true) as Hmem.
      { apply set_mem_link_set. exists l1. split; [done|]. apply link_key_eqb_refl. }
      apply set_mem_exists in Hmem as (k & Hk & Heq).
      apply list_elem_of_In, Hall, set_mem_link_set in Hk as (l2 & Hl2 & Heq').
      exists l2. split; [done|].
      apply link_key_eqb_same_ends. by eapply link_key_eqb_trans.
    - intros Hall k Hk%list_elem_of_In.
      apply elem_of_link_set in Hk as (l1 & Hl1 & Heq).
      destruct (Hall l1 Hl1) as (l2 & Hl2 & Hsame%link_key_eqb_same_ends).
      apply set_mem_link_set. exists l2. split; [done|].
      by eapply link_key_eqb_trans. }
  unfold set_eqb. by rewrite andb_true_iff, !Hhalf.
Qed.

Lemma same_link_ends_sym l1 l2 : same_link_ends l1 l2 → same_link_ends l2 l1.
Proof. rewrite <- !link_key_eqb_same_ends. apply link_key_eqb_sym. Qed.

Lemma same_link_ends_trans l1 l2 l3 :
  same_link_ends l1 l2 → same_link_ends l2 l3 → same_link_ends l1 l3.
Proof. rewrite <- !link_key_eqb_same_ends. apply link_key_eqb_trans. Qed.

(** C5, as the code has it. For two graphs to compare equal, each link of
    either graph must have a link of the other with the same ends, where
    an end is the node's type, the node's position and the socket's name;
    the name of the node is not part of it. The test is on the two sets of
    such descriptors, so neither the order of the links nor a repeated
    descriptor matters: replacing the links of a graph by as many links
    with the same set of descriptors does not change the result. *)
Theorem links_compared_by_type_position_socket (t1 t2 : NodeTree) :
  (compare_node_trees (Some t1) (Some t2) = true →
   (∀ l1, l1 ∈ tree_links t1 → ∃ l2, l2 ∈ tree_links t2 ∧ same_link_ends l1 l2)
   ∧ (∀ l2, l2 ∈ tree_links t2 → ∃ l1, l1 ∈ tree_links t1 ∧ same_link_ends l2 l1))
  ∧ (∀ links,
       length links = length (tree_links t1) →
       (∀ l, l ∈ links → ∃ l1, l1 ∈ tree_links t1 ∧ same_link_ends l l1) →
       (∀ l1, l1 ∈ tree_links t1 → ∃ l, l ∈ links ∧ same_link_ends l1 l) →
       compare_node_trees (Some (mkNodeTree (tree_nodes t1) links)) (Some t2)
       = compare_node_trees (Some t1) (Some t2)).
Proof.
  split.
  - unfold compare_node_trees. intros Hrun.
    destruct (negb _); [done|]. destruct (negb _); [done|].
    destruct (index_nodes (tree_nodes t1) []) as [nodes1|]; [|done].
    destruct (index_nodes (tree_nodes t2) []) as [nodes2|]; [|done].
    destruct (forallb _ _); [|done].
    by apply set_eqb_link_set.
  - intros links Hlen Hinto Hfrom. unfold compare_node_trees. cbn. rewrite Hlen.
    destruct (negb _); [done|]. destruct (negb _); [done|].
    destruct (index_nodes (tree_nodes t1) []) as [nodes1|]; [|done].
    destruct (index_nodes (tree_nodes t2) []) as [nodes2|]; [|done].
    destruct (forallb _ _); [|done].
    apply eq_true_iff_eq. rewrite !set_eqb_link_set. split.
    + intros [H12 H21]. split.
      * intros l1 Hl1. destruct (Hfrom l1 Hl1) as (l & Hl & Hsame).
        destruct (H12 l Hl) as (l2 & Hl2 & Hsame'). exists l2. split; [done|].
        by eapply same_link_ends_trans.
      * intros l2 Hl2. destruct (H21 l2 Hl2) as (l & Hl & Hsame).
        destruct (Hinto l Hl) as (l1 & Hl1 & Hsame'). exists l1. split; [done|].
        by eapply same_link_ends_trans.
    + intros [H12 H21]. split.
      * intros l Hl. destruct (Hinto l Hl) as (l1 & Hl1 & Hsame).
        destruct (H12 l1 Hl1) as (l2 & Hl2 & Hsame'). exists l2. split; [done|].
        by eapply same_link_ends_trans.
      * intros l2 Hl2. destruct (H21 l2 Hl2) as (l1 & Hl1 & Hsame).
        destruct (Hfrom l1 Hl1) as (l & Hl & Hsame'). exists l. split; [done|].
        by eapply same_link_ends_trans.
Qed.

Lemma links_compared_by_type_position_socket_witness :
  (∃ l2, l2 ∈ tree_links tree_second
         ∧ same_link_ends
             (mkLink (image_node "Image Texture" 7) color_socket
                     output_node surface_socket) l2)
  ∧ compare_node_trees
      (Some (mkNodeTree (tree_nodes tree_first) (tree_links tree_second)))
      (Some tree_second)
    = compare_node_trees (Some tree_first) (Some tree_second).
Proof.
  destruct (links_compared_by_type_position_socket tree_first tree_second)
    as [Hmust Hset].
  assert (same_link_ends
            (mkLink (image_node "Image Texture" 7) color_socket
                    output_node surface_socket)
            (mkLink (image_node "Image Texture.001" 8) color_socket
                    output_node surface_socket)) as Hsame.
  { apply link_key_eqb_same_ends. vm_compute. reflexivity. }
  split.
  - destruct Hmust as [Hfirst _]; [vm_compute; reflexivity|].
    apply Hfirst. left.
  - apply Hset; [reflexivity| |].
    + intros l ->%list_elem_of_singleton. eexists. split; [left|].
      by apply same_link_ends_sym.
    + intros l ->%list_elem_of_singleton. eexists. split; [left|]. done.
Defined.

(** C5, as the spec words it, fails: the two sample graphs compare equal
    although their descriptor sets, with the full (type, position, name)
    key of each node, are different. *)
Lemma node_name_not_in_link_key :
  compare_node_trees (Some tree_first) (Some tree_second) = true
  ∧ spec_descriptor_sets_equal (tree_links tree_first) (tree_links tree_second)
    = false.
Proof. split; vm_compute; reflexivity. Qed.

(** * Further properties of the operator *)

(** ** The slot removal *)

Lemma remove_slots_counts l mesh n mesh' n' :
  StronglySorted descending l → NoDup l →
  (∀ idx, idx ∈ l → idx < length (mesh_materials mesh)) →
  remove_slots l mesh n = (mesh', n') →
  n' = n + length l
  ∧ length (mesh_materials mesh') + length l = length (mesh_materials mesh)
  ∧ length (mesh_faces mesh') = length (mesh_faces mesh).
Proof.
  revert mesh n.
  induction l as [|idx l IH]; intros mesh n Hsorted Hnodup Hvalid Hrun.
  - injection Hrun as <- <-. cbn. lia.
  - apply StronglySorted_inv in Hsorted as [Hsorted Hall].
    apply NoDup_cons in Hnodup as [Hidx Hnodup].
    rewrite Forall_forall in Hall. unfold descending in Hall.
    assert (idx < length (mesh_materials mesh)) as Hlt by (apply Hvalid; by left).
    rewrite remove_slots_cons in Hrun.
    apply Nat.ltb_lt in Hlt as Hltb. rewrite Hltb in Hrun.
    assert (length (mesh_materials (materials_pop idx mesh))
            = length (mesh_materials mesh) - 1) as Hlen.
    { cbn. apply length_delete. by apply lookup_lt_is_Some. }
    destruct (IH (materials_pop idx mesh) (S n) Hsorted Hnodup)
      as (-> & Hslots & Hfaces); [|done|].
    { intros y Hy. rewrite Hlen. specialize (Hall y Hy).
      assert (y ≠ idx) by (intros ->; done). lia. }
    rewrite Hlen in Hslots. cbn in Hfaces. rewrite length_fmap in Hfaces.
    cbn [length]. split_and!; [lia|lia|done].
Qed.

Lemma remove_slots_sublist l mesh n mesh' n' :
  remove_slots l mesh n = (mesh', n') →
  mesh_materials mesh' `sublist_of` mesh_materials mesh.
Proof.
  revert mesh n. induction l as [|idx l IH]; intros mesh n Hrun.
  - by injection Hrun as <- <-.
  - rewrite remove_slots_cons in Hrun.
    destruct (idx <? length (mesh_materials mesh))%nat; [|by eapply IH].
    etrans; [by eapply IH|]. cbn. apply sublist_delete.
Qed.

Lemma slot_index_lt target slots i :
  slot_index target slots = Some i → i < length slots.
Proof. intros Hi%slot_index_Some. by eapply lookup_lt_Some. Qed.

Lemma rewritten_counts scene (mesh mesh' : Mesh) (removed : nat) :
  process_mesh scene mesh = Rewritten mesh' removed →
  0 < removed
  ∧ length (mesh_materials mesh') + removed = length (mesh_materials mesh)
  ∧ mesh_materials mesh' `sublist_of` mesh_materials mesh
  ∧ length (mesh_faces mesh') = length (mesh_faces mesh).
Proof.
  unfold process_mesh. intros Hrun.
  destruct (mesh_materials mesh) as [|slot slots] eqn:Hslots; [done|].
  rewrite <- Hslots in *. clear Hslots slot slots.
  destruct (length _ <? 2)%nat; [done|].
  destruct (find_duplicate_materials scene _) as [|entry duplicates] eqn:Hdups; [done|].
  rewrite <- Hdups in *. clear Hdups entry duplicates.
  pose proof (build_mapping_mapped (mesh_materials mesh)
                (find_duplicate_materials scene (omap id (mesh_materials mesh))))
    as [Hmap Hdom].
  destruct (build_mapping _ _) as [material_mapping materials_to_remove].
  cbn in Hmap, Hdom.
  destruct (decide (material_mapping = ∅)) as [|Hne]; [done|].
  destruct (remove_slots _ _ 0) as [mesh1 removed1] eqn:Hremove.
  injection Hrun as -> ->.
  pose proof (remove_slots_sublist _ _ _ _ _ Hremove) as Hsub.
  apply remove_slots_counts in Hremove as (-> & Hlen & Hfaces);
    [|apply sorted_reverse_sorted|apply sorted_reverse_NoDup|].
  - cbn in Hlen, Hfaces, Hsub. unfold reassign in Hfaces. rewrite length_fmap in Hfaces.
    split_and!; [|done|done|done].
    apply map_choose in Hne as (k & v & Hk).
    assert (k ∈ sorted_reverse materials_to_remove) as Hin.
    { apply elem_of_sorted_reverse, Hdom. by eexists. }
    destruct (sorted_reverse materials_to_remove); [by apply elem_of_nil in Hin|].
    cbn. lia.
  - intros idx [v Hv]%elem_of_sorted_reverse%Hdom. cbn.
    destruct (Hmap idx v Hv) as (c & ds & d & _ & _ & _ & Hd).
    by eapply slot_index_lt.
Qed.

(** X3. A mesh that the operator rewrites loses at least one slot; the
    number it adds to [removed_count] is the number of slots the mesh loses,
    the slots that stay keep their order, and no face is added or dropped. *)
Theorem rewritten_mesh_loses_counted_slots scene (mesh mesh' : Mesh) (removed : nat) :
  process_mesh scene mesh = Rewritten mesh' removed →
  0 < removed
  ∧ length (mesh_materials mesh') + removed = length (mesh_materials mesh)
  ∧ mesh_materials mesh' `sublist_of` mesh_materials mesh
  ∧ length (mesh_faces mesh') = length (mesh_faces mesh).
Proof. apply rewritten_counts. Qed.

Lemma rewritten_mesh_loses_counted_slots_witness :
  0 < 2
  ∧ length [Some 0; Some 2] + 2 = length (mesh_materials four_slots)
  ∧ [Some 0; Some 2] `sublist_of` mesh_materials four_slots
  ∧ length [0; 0; 1; 1; 0; 1] = length (mesh_faces four_slots).
Proof.
  apply (rewritten_mesh_loses_counted_slots pairs_scene four_slots
           (mkMesh [Some 0; Some 2] [0; 0; 1; 1; 0; 1]) 2).
  vm_compute. reflexivity.
Defined.

(** ** The index mapping *)

(** X4. The index mapping that the operator builds never chains: a slot
    index that it rewrites is sent to a different slot index that is not
    itself rewritten, and both lie within the slot list. Rewriting the
    faces twice is therefore the same as rewriting them once. *)
Theorem material_mapping_does_not_chain scene (slots : list (option material)) :
  (∀ k v,
     (build_mapping slots (find_duplicate_materials scene (omap id slots))).1 !! k
     = Some v →
     (build_mapping slots (find_duplicate_materials scene (omap id slots))).1 !! v
     = None
     ∧ k ≠ v ∧ k < length slots ∧ v < length slots)
  ∧ (∀ faces,
       reassign (build_mapping slots
                   (find_duplicate_materials scene (omap id slots))).1
         (reassign (build_mapping slots
                      (find_duplicate_materials scene (omap id slots))).1 faces)
       = reassign (build_mapping slots
                     (find_duplicate_materials scene (omap id slots))).1 faces).
Proof.
  destruct (find_duplicate_materials_grouped scene (omap id slots))
    as (processed & Hgrouped).
  pose proof (build_mapping_mapped slots
                (find_duplicate_materials scene (omap id slots))) as Hmapped.
  destruct (build_mapping _ _) as [material_mapping materials_to_remove] eqn:Hb.
  cbn [fst].
  assert (∀ f, material_mapping !! default f (material_mapping !! f) = None)
    as Hstop.
  { intros f.
    destruct (reassign_target scene _ _ _ _ _ f Hgrouped Hmapped) as [Hkept _].
    destruct Hmapped as [_ Hdom]. cbn in Hdom.
    destruct (material_mapping !! default f (material_mapping !! f)) eqn:Hv; [|done].
    exfalso. apply Hkept, Hdom. by eexists. }
  split.
  - intros k v Hk. pose proof (Hstop k) as Hv. rewrite Hk in Hv. cbn in Hv.
    destruct Hmapped as [Hmap _]. cbn in Hmap.
    destruct (Hmap k v Hk) as (c & ds & d & _ & _ & Hc & Hd).
    split_and!; [done| |by eapply slot_index_lt|by eapply slot_index_lt].
    intros ->. congruence.
  - intros faces. unfold reassign. rewrite <- list_fmap_compose.
    apply list_fmap_ext. intros i f _. cbn. by rewrite Hstop.
Qed.

(** ** A second run *)

Lemma find_duplicate_materials_none scene (materials : list material) :
  (∀ x y, x ∈ materials → y ∈ materials →
          compare_material_properties scene (Some x) (Some y) = false) →
  find_duplicate_materials scene materials = [].
Proof.
  intros Hnone.
  destruct (find_duplicate_materials scene materials) as [|[c ds] rest] eqn:Hrun;
    [done|].
  assert ((c, ds) ∈ find_duplicate_materials scene materials) as Hin
    by (rewrite Hrun; left).
  destruct (find_duplicate_materials_entries scene _ _ _ Hin) as [Hne Hds].
  destruct ds as [|x ds']; [done|].
  destruct (Hds x) as (Hcmp & l1 & l2 & Hsplit & Hx); [by left|].
  rewrite Hnone in Hcmp; [done| |].
  - rewrite Hsplit. apply elem_of_app. right. by left.
  - rewrite Hsplit. apply elem_of_app. right. by right.
Qed.

(** X1. When no material sits in two slots of a mesh, the slot list that
    the operator leaves on it holds no two materials that the comparator
    matches. *)
Theorem distinct_slots_end_without_duplicates scene (mesh : Mesh) i j a b :
  NoDup (omap id (mesh_materials mesh)) →
  i ≠ j →
  slots_after scene mesh !! i = Some (Some a) →
  slots_after scene mesh !! j = Some (Some b) →
  compare_material_properties scene (Some a) (Some b) = false.
Proof. apply no_duplicates_left_without_repeated_slot. Qed.

Lemma distinct_slots_end_without_duplicates_witness :
  compare_material_properties pairs_scene (Some 0) (Some 2) = false.
Proof.
  apply (distinct_slots_end_without_duplicates pairs_scene four_slots 0 1 0 2).
  - apply (bool_decide_unpack _). vm_compute. exact I.
  - lia.
  - vm_compute. reflexivity.
  - vm_compute. reflexivity.
Defined.

Lemma rerun_skipped scene (mesh mesh' : Mesh) (removed : nat) :
  NoDup (omap id (mesh_materials mesh)) →
  process_mesh scene mesh = Rewritten mesh' removed →
  process_mesh scene mesh' = Skipped.
Proof.
  intros Hnd Hrun.
  assert (find_duplicate_materials scene (omap id (mesh_materials mesh')) = [])
    as Hnone.
  { apply find_duplicate_materials_none.
    intros x y (ex & [i Hi]%list_elem_of_lookup & Hex)%list_elem_of_omap
                (ey & [j Hj]%list_elem_of_lookup & Hey)%list_elem_of_omap.
    cbn in Hex, Hey. subst ex ey.
    destruct (decide (i = j)) as [->|Hne].
    - rewrite Hi in Hj. injection Hj as ->. apply compare_irrefl.
    - apply (no_duplicates_left_without_repeated_slot scene mesh i j x y Hnd Hne);
        unfold slots_after; by rewrite Hrun. }
  unfold process_mesh. destruct (mesh_materials mesh'); [done|].
  destruct (length _ <? 2)%nat; [done|]. by rewrite Hnone.
Qed.

(** X2. When no material sits in two slots of a mesh that the operator
    rewrites, a second run on the rewritten mesh finds nothing to do and
    leaves before any mode switch. *)
Theorem second_run_is_skipped scene (mesh mesh' : Mesh) (removed : nat) :
  NoDup (omap id (mesh_materials mesh)) →
  process_mesh scene mesh = Rewritten mesh' removed →
  process_mesh scene mesh' = Skipped.
Proof. apply rerun_skipped. Qed.

Lemma second_run_is_skipped_witness :
  process_mesh pairs_scene (mkMesh [Some 0; Some 2] [0; 0; 1; 1; 0; 1]) = Skipped.
Proof.
  apply (second_run_is_skipped pairs_scene four_slots _ 2).
  - apply (bool_decide_unpack _). vm_compute. exact I.
  - vm_compute. reflexivity.
Defined.

Lemma material_mapping_does_not_chain_witness :
  ((build_mapping (mesh_materials four_slots)
      (find_duplicate_materials pairs_scene
         (omap id (mesh_materials four_slots)))).1 !! 0 = None
   ∧ 1 ≠ 0 ∧ 1 < length (mesh_materials four_slots)
   ∧ 0 < length (mesh_materials four_slots))
  ∧ reassign (build_mapping (mesh_materials four_slots)
                (find_duplicate_materials pairs_scene
                   (omap id (mesh_materials four_slots)))).1
      (reassign (build_mapping (mesh_materials four_slots)
                   (find_duplicate_materials pairs_scene
                      (omap id (mesh_materials four_slots)))).1
         (mesh_faces four_slots))
    = reassign (build_mapping (mesh_materials four_slots)
                  (find_duplicate_materials pairs_scene
                     (omap id (mesh_materials four_slots)))).1
        (mesh_faces four_slots).
Proof.
  destruct (material_mapping_does_not_chain pairs_scene (mesh_materials four_slots))
    as [Hstop Htwice].
  split; [|apply Htwice]. apply (Hstop 1 0). vm_compute. reflexivity.
Defined.

(** ** What the grouper leaves unlisted *)

Section Leftovers.

Variable scene : material -> Attrs.

(** [scanned] holds the materials that have had a turn of the outer loop
    in which they were compared with everything after them. *)
Lemma group_loop_leftovers materials d processed (scanned : list material) :
  grouped scene d processed →
  (∀ z, z ∈ processed → z ∈ d.*1 ∨ z ∈ mjoin d.*2) →
  (∀ k, k ∈ d.*1 → k ∈ scanned) →
  (∀ x y, x ∈ scanned → y ∈ materials →
     x ∉ mjoin (group_loop scene materials d processed).*2 →
     y ∉ mjoin (group_loop scene materials d processed).*2 →
     compare_material_properties scene (Some x) (Some y) = false) →
  (∀ x y, x ∈ scanned → y ∈ scanned →
     x ∉ mjoin (group_loop scene materials d processed).*2 →
     y ∉ mjoin (group_loop scene materials d processed).*2 →
     compare_material_properties scene (Some x) (Some y) = false) →
  ∀ x y, x ∈ scanned ∨ x ∈ materials → y ∈ scanned ∨ y ∈ materials →
         x ∉ mjoin (group_loop scene materials d processed).*2 →
         y ∉ mjoin (group_loop scene materials d processed).*2 →
         compare_material_properties scene (Some x) (Some y) = false.
Proof.
  revert d processed scanned.
  induction materials as [|mat1 later IH];
    intros d p scanned Hg Hp Hkeys Hahead Hpast x y Hx Hy Hfx Hfy.
  { destruct Hx as [Hx|Hx]; [|by apply elem_of_nil in Hx].
    destruct Hy as [Hy|Hy]; [|by apply elem_of_nil in Hy]. by apply Hpast. }
  destruct (group_loop_turn scene mat1 later d p Hg) as (d' & p' & Hrun & Hg' & Hturn).
  rewrite Hrun in *.
  assert (∀ z, z ∈ mjoin d.*2 → z ∈ mjoin (group_loop scene later d' p').*2) as Hkeep.
  { intros z Hz. apply group_loop_keeps; [done|].
    destruct Hturn as [(_ & -> & _) | (_ & found & _ & [(_ & -> & _) | (-> & _)])];
      try done.
    rewrite fmap_app, join_app. apply elem_of_app. by left. }
  destruct Hturn as [(Hin & -> & ->) | (Hnot & found & Hcomplete & Hcase)].
  - (* the material was marked before its turn *)
    assert (mat1 ∈ scanned ∨ mat1 ∈ mjoin (group_loop scene later d p).*2) as Hmat1.
    { destruct (Hp _ Hin); [left; by apply Hkeys|right; by apply Hkeep]. }
    assert (∀ z, z ∈ scanned ∨ z ∈ mat1 :: later →
                 z ∉ mjoin (group_loop scene later d p).*2 →
                 z ∈ scanned ∨ z ∈ later) as Hshift.
    { intros z [?|[->|?]%elem_of_cons] Hz; [by left| |by right].
      destruct Hmat1; [by left|done]. }
    apply (IH d p scanned); try done.
    + intros u v Hu Hv. apply Hahead; [done|by right].
    + by apply Hshift.
    + by apply Hshift.
  - (* the material is compared with what follows *)
    assert (∀ z, z ∈ found → z ∈ mjoin (group_loop scene later d' p').*2) as Hfound.
    { intros z Hz. apply group_loop_keeps; [done|].
      destruct Hcase as [(-> & _) | (-> & _)]; [by apply elem_of_nil in Hz|].
      rewrite fmap_app, join_app. apply elem_of_app. right. cbn.
      by rewrite app_nil_r. }
    assert (∀ v, v ∈ later →
              mat1 ∉ mjoin (group_loop scene later d' p').*2 →
              v ∉ mjoin (group_loop scene later d' p').*2 →
              compare_material_properties scene (Some mat1) (Some v) = false)
      as Hnow.
    { intros v Hv Hfm Hfv. destruct (decide (v ∈ p)) as [Hvp|Hvp].
      - destruct (Hp _ Hvp) as [Hk|Hd]; [|exfalso; by apply Hfv, Hkeep].
        rewrite compare_sym. apply Hahead; [by apply Hkeys|by left|done|done].
      - apply Hcomplete; [done| |done]. intros ?. by apply Hfv, Hfound. }
    apply (IH d' p' (mat1 :: scanned)); try done.
    + intros z Hz.
      destruct Hcase as [(_ & -> & ->) | (-> & ->)]; [by apply Hp|].
      rewrite !fmap_app, join_app. cbn. rewrite app_nil_r.
      apply elem_of_union in Hz as [->%elem_of_singleton|Hz].
      { left. apply elem_of_app. right. by left. }
      apply elem_of_union in Hz as [Hz%elem_of_list_to_set|Hz].
      { right. apply elem_of_app. by right. }
      destruct (Hp z Hz); [left|right]; apply elem_of_app; by left.
    + intros k Hk.
      destruct Hcase as [(_ & -> & _) | (-> & _)]; [right; by apply Hkeys|].
      rewrite fmap_app in Hk.
      apply elem_of_app in Hk as [Hk | ->%list_elem_of_singleton];
        [right; by apply Hkeys|by left].
    + intros u v [->|Hu]%elem_of_cons Hv Hfu Hfv; [by apply Hnow|].
      apply Hahead; [done|by right|done|done].
    + intros u v [->|Hu]%elem_of_cons [->|Hv]%elem_of_cons Hfu Hfv.
      * apply compare_irrefl.
      * rewrite compare_sym. apply Hahead; [done|by left|done|done].
      * apply Hahead; [done|by left|done|done].
      * by apply Hpast.
    + destruct Hx as [?|[->|?]%elem_of_cons]; [left; by right|left; by left|by right].
    + destruct Hy as [?|[->|?]%elem_of_cons]; [left; by right|left; by left|by right].
Qed.

End Leftovers.

(** X5. Whatever the input list, two of its materials that the grouper
    does not list as duplicates do not match; and the grouper returns an
    empty mapping exactly when no two materials of the input match. *)
Theorem unlisted_materials_do_not_match scene (materials : list material) :
  (∀ x y,
     x ∈ materials → y ∈ materials →
     x ∉ mjoin (find_duplicate_materials scene materials).*2 →
     y ∉ mjoin (find_duplicate_materials scene materials).*2 →
     compare_material_properties scene (Some x) (Some y) = false)
  ∧ (find_duplicate_materials scene materials = []
     ↔ ∀ x y, x ∈ materials → y ∈ materials →
              compare_material_properties scene (Some x) (Some y) = false).
Proof.
  assert (∀ x y,
     x ∈ materials → y ∈ materials →
     x ∉ mjoin (find_duplicate_materials scene materials).*2 →
     y ∉ mjoin (find_duplicate_materials scene materials).*2 →
     compare_material_properties scene (Some x) (Some y) = false) as Hleft.
  { intros x y Hx Hy. unfold find_duplicate_materials.
    apply (group_loop_leftovers scene materials [] ∅ []).
    - apply grouped_empty.
    - intros z Hz. by apply elem_of_empty in Hz.
    - intros k Hk. by apply elem_of_nil in Hk.
    - intros u v Hu. by apply elem_of_nil in Hu.
    - intros u v Hu. by apply elem_of_nil in Hu.
    - by right.
    - by right. }
  split; [done|]. split.
  - intros Hnone x y Hx Hy. apply Hleft; try done; rewrite Hnone; apply not_elem_of_nil.
  - apply find_duplicate_materials_none.
Qed.

Lemma unlisted_materials_do_not_match_witness :
  compare_material_properties pairs_scene (Some 0) (Some 2) = false
  ∧ (find_duplicate_materials pairs_scene [0; 2] = []
     ↔ ∀ x y, x ∈ [0; 2] → y ∈ [0; 2] →
              compare_material_properties pairs_scene (Some x) (Some y) = false).
Proof.
  split.
  - destruct (unlisted_materials_do_not_match pairs_scene [0; 1; 2]) as [H _].
    assert (mjoin (find_duplicate_materials pairs_scene [0; 1; 2]).*2 = [1]) as Hd
      by (vm_compute; reflexivity).
    apply H.
    + left.
    + right. right. left.
    + rewrite Hd. intros ?%list_elem_of_singleton. lia.
    + rewrite Hd. intros ?%list_elem_of_singleton. lia.
  - apply (unlisted_materials_do_not_match pairs_scene [0; 2]).
Defined.

(** * Further properties of the attribute comparator *)

Lemma basic_properties_agree a1 a2 :
  use_nodes a1 = use_nodes a2 → same_basic a1 a2 →
  try_except (basic_properties a1 a2) = Next tt.
Proof.
  intros Hn (Hb & Ha & Hs & Hc). unfold basic_properties.
  rewrite <- Hn, <- Hb, <- Ha, <- Hs, <- Hc. apply basic_properties_same.
Qed.

Lemma surface_properties_agree a1 a2 :
  same_surface a1 a2 → try_except (surface_properties a1 a2) = Next tt.
Proof.
  intros (Hd & Hm & Hs & Hr). unfold surface_properties.
  rewrite <- Hd, <- Hm, <- Hs, <- Hr. apply surface_properties_same.
Qed.

Lemma node_shading_agree a1 a2 : same_node_data a1 a2 → node_shading a1 a2 = true.
Proof.
  intros [Hn Ht]. unfold node_shading. rewrite <- Hn, <- Ht.
  apply node_shading_same.
Qed.

(** X6. Two different materials whose attributes all have the same values
    are duplicates, whichever of the optional attributes are missing. *)
Theorem copies_are_duplicates scene (m1 m2 : material) :
  m1 ≠ m2 → scene m1 = scene m2 →
  compare_material_properties scene (Some m1) (Some m2) = true.
Proof.
  intros Hne Heq. unfold compare_material_properties.
  apply Nat.eqb_neq in Hne. rewrite Hne, <- Heq.
  rewrite basic_properties_same. cbn. rewrite surface_properties_same. cbn.
  apply node_shading_same.
Qed.

Lemma copies_are_duplicates_witness :
  compare_material_properties copies_scene (Some 0) (Some 1) = true.
Proof. apply copies_are_duplicates; [lia|reflexivity]. Defined.

(** X7. Two materials identical except for one toleranced attribute are
    different when the difference that the test computes, the double
    [abs(x - y)], is above the double [0.001], provided the test of that
    attribute is reached: [blend_method] and [diffuse_color] must be
    present, since a missing attribute ends its block. *)
Theorem difference_above_tolerance_is_different scene (m1 m2 : material) f v1 v2 :
  m1 ≠ m2 →
  read_scalar f (scene m1) = Some v1 →
  scene m2 = write_scalar f v2 (scene m1) →
  is_Some (blend_method (scene m1)) →
  is_Some (diffuse_color (scene m1)) →
  (0.001 <? abs (v1 - v2))%float = true →
  compare_material_properties scene (Some m1) (Some m2) = false.
Proof. apply beyond_tolerance. Qed.

Lemma difference_above_tolerance_is_different_witness :
  compare_material_properties drift_scene (Some 0) (Some 2) = false.
Proof.
  apply (difference_above_tolerance_is_different drift_scene 0 2 AlphaThreshold
           0.5%float 0.5016%float);
    [lia | reflexivity | reflexivity | by eexists | by eexists | reflexivity].
Defined.

(** X8. A missing attribute silences the rest of its block. When
    [blend_method] is missing on the first material, the alpha threshold
    and the two flags that follow it are not compared; when
    [diffuse_color] is missing, neither are [metallic], [specular] and
    [roughness], not even the presence of [specular]. Materials that agree
    on everything else are then duplicates. *)
Theorem missing_attribute_ends_its_block scene (m1 m2 : material) :
  m1 ≠ m2 →
  same_node_data (scene m1) (scene m2) →
  (blend_method (scene m1) = None → same_surface (scene m1) (scene m2) →
   compare_material_properties scene (Some m1) (Some m2) = true)
  ∧ (diffuse_color (scene m1) = None → same_basic (scene m1) (scene m2) →
     compare_material_properties scene (Some m1) (Some m2) = true).
Proof.
  intros Hne Hnodes. unfold compare_material_properties.
  apply Nat.eqb_neq in Hne. rewrite Hne.
  rewrite (node_shading_agree _ _ Hnodes). destruct Hnodes as [Hn _]. split.
  - intros Hb Hsurface. rewrite (surface_properties_agree _ _ Hsurface).
    unfold basic_properties. rewrite <- Hn, Bool.eqb_reflx, Hb. done.
  - intros Hd Hbasic. rewrite (basic_properties_agree _ _ Hn Hbasic).
    unfold surface_properties. rewrite Hd. done.
Qed.

Lemma missing_attribute_ends_its_block_witness :
  compare_material_properties bare_scene (Some 0) (Some 1) = true
  ∧ compare_material_properties bare_scene (Some 2) (Some 3) = true.
Proof.
  split.
  - destruct (missing_attribute_ends_its_block bare_scene 0 1) as [H _];
      [lia|by split|]. apply H; [reflexivity|]. by repeat split.
  - destruct (missing_attribute_ends_its_block bare_scene 2 3) as [_ H];
      [lia|by split|]. apply H; [reflexivity|]. by repeat split.
Defined.

Lemma compare_if_both_absent v1 v2 :
  v1 = None ∨ v2 = None → compare_if_both v1 v2 = Next tt.
Proof. intros [-> | ->]; [done|by destruct v1]. Qed.

(** X9. The presence rules of the surface attributes differ. A [metallic]
    or [roughness] value that only one of two otherwise equal materials
    has is passed over, and the materials are duplicates; a [specular]
    value that only one of them has makes them different, as long as
    [diffuse_color] is present so that the test is reached. *)
Theorem presence_rules_differ scene (m1 m2 : material) :
  m1 ≠ m2 →
  same_node_data (scene m1) (scene m2) →
  same_basic (scene m1) (scene m2) →
  diffuse_color (scene m1) = diffuse_color (scene m2) →
  (specular (scene m1) = specular (scene m2) →
   roughness (scene m1) = roughness (scene m2) →
   metallic (scene m1) = None ∨ metallic (scene m2) = None →
   compare_material_properties scene (Some m1) (Some m2) = true)
  ∧ (metallic (scene m1) = metallic (scene m2) →
     specular (scene m1) = specular (scene m2) →
     roughness (scene m1) = None ∨ roughness (scene m2) = None →
     compare_material_properties scene (Some m1) (Some m2) = true)
  ∧ (metallic (scene m1) = metallic (scene m2) →
     is_Some (diffuse_color (scene m1)) →
     hasattr (specular (scene m1)) ≠ hasattr (specular (scene m2)) →
     compare_material_properties scene (Some m1) (Some m2) = false).
Proof.
  intros Hne Hnodes Hbasic Hd. unfold compare_material_properties.
  apply Nat.eqb_neq in Hne. rewrite Hne.
  rewrite (node_shading_agree _ _ Hnodes).
  rewrite (basic_properties_agree _ _ (proj1 Hnodes) Hbasic). cbn.
  unfold surface_properties. rewrite <- Hd.
  split; [|split].
  - intros Hs Hr Hm. rewrite <- Hs, <- Hr.
    destruct (diffuse_color (scene m1)); [|done]. cbn.
    rewrite Nat.eqb_refl. cbn. rewrite diffuse_loop_same. cbn.
    rewrite (compare_if_both_absent _ _ Hm). cbn.
    rewrite compare_specular_same. cbn.
    by rewrite (compare_if_both_same (roughness (scene m1))).
  - intros Hm Hs Hr. rewrite <- Hm, <- Hs.
    destruct (diffuse_color (scene m1)); [|done]. cbn.
    rewrite Nat.eqb_refl. cbn. rewrite diffuse_loop_same. cbn.
    rewrite (compare_if_both_same (metallic (scene m1))). cbn.
    rewrite compare_specular_same. cbn.
    by rewrite (compare_if_both_absent _ _ Hr).
  - intros Hm [c Hc] Hs. rewrite <- Hm, Hc. cbn.
    rewrite Nat.eqb_refl. cbn. rewrite diffuse_loop_same. cbn.
    rewrite (compare_if_both_same (metallic (scene m1))). cbn.
    destruct (specular (scene m1)), (specular (scene m2)); done.
Qed.

Lemma presence_rules_differ_witness :
  compare_material_properties presence_scene (Some 0) (Some 1) = true
  ∧ compare_material_properties presence_scene (Some 0) (Some 3) = true
  ∧ compare_material_properties presence_scene (Some 0) (Some 2) = false.
Proof.
  split; [|split].
  - destruct (presence_rules_differ presence_scene 0 1) as (H & _ & _);
      [lia|by split|by repeat split|reflexivity|].
    apply H; [reflexivity|reflexivity|by right].
  - destruct (presence_rules_differ presence_scene 0 3) as (_ & H & _);
      [lia|by split|by repeat split|reflexivity|].
    apply H; [reflexivity|reflexivity|by right].
  - destruct (presence_rules_differ presence_scene 0 2) as (_ & _ & H);
      [lia|by split|by repeat split|reflexivity|].
    apply H; [reflexivity|by eexists|]. cbn. discriminate.
Defined.

(** X10. The comparison is not transitive, and the grouping depends on the
    order of the input: of three materials whose alpha thresholds are
    0.5, 0.5008 and 0.5016 the first matches the second and the second
    the third, but the first does not match the third; listed in that
    order only the second becomes a duplicate, listed with the second in
    front both others do. *)
Theorem comparison_is_not_transitive :
  ∃ scene (a b c : material),
    compare_material_properties scene (Some a) (Some b) = true
    ∧ compare_material_properties scene (Some b) (Some c) = true
    ∧ compare_material_properties scene (Some a) (Some c) = false
    ∧ find_duplicate_materials scene [a; b; c] = [(a, [b])]
    ∧ find_duplicate_materials scene [b; a; c] = [(b, [a; c])].
Proof.
  exists drift_scene, 0, 1, 2. split_and!; vm_compute; reflexivity.
Qed.

(** * Further properties of the node and graph comparators *)

Lemma Qlist_eqb_comm l1 l2 : Qlist_eqb l1 l2 = Qlist_eqb l2 l1.
Proof. apply eq_true_iff_eq. split; apply Qlist_eqb_sym. Qed.

Lemma same_if_both_comm {A} (eqb : A → A → bool) v1 v2 :
  (∀ x y, eqb x y = eqb y x) →
  same_if_both eqb v1 v2 = same_if_both eqb v2 v1.
Proof. intros Hcomm. destruct v1, v2; cbn; auto. Qed.

Lemma same_if_both_refl {A} (eqb : A → A → bool) v :
  (∀ x, eqb x x = true) → same_if_both eqb v v = true.
Proof. intros Hrefl. destruct v; cbn; auto. Qed.

Lemma inputs_loop_comm (inputs1 inputs2 : list Socket) :
  forallb (fun '(input1, input2) =>
             same_if_both Qlist_eqb (default_value input1) (default_value input2))
          (zip inputs1 inputs2)
  = forallb (fun '(input1, input2) =>
               same_if_both Qlist_eqb (default_value input1) (default_value input2))
            (zip inputs2 inputs1).
Proof.
  revert inputs2. induction inputs1 as [|s1 l1 IH]; intros [|s2 l2]; try done.
  cbn. rewrite IH. f_equal. apply same_if_both_comm, Qlist_eqb_comm.
Qed.

Lemma inputs_loop_refl (inputs : list Socket) :
  forallb (fun '(input1, input2) =>
             same_if_both Qlist_eqb (default_value input1) (default_value input2))
          (zip inputs inputs) = true.
Proof.
  induction inputs as [|s l IH]; [done|]. cbn. rewrite IH.
  by rewrite (same_if_both_refl _ _ Qlist_eqb_refl).
Qed.

Lemma compare_node_properties_refl node : compare_node_properties node node = true.
Proof.
  unfold compare_node_properties. rewrite String.eqb_refl. cbn.
  rewrite (same_if_both_refl _ _ Qlist_eqb_refl). cbn.
  rewrite (same_if_both_refl _ _ Bool.eqb_reflx). cbn.
  rewrite inputs_loop_refl.
  rewrite (same_if_both_refl (fun i1 i2 : option nat => bool_decide (i1 = i2)))
    by (intros x; by apply bool_decide_eq_true_2).
  cbn. rewrite (same_if_both_refl _ _ String.eqb_refl). cbn.
  by repeat destruct (String.eqb _ _).
Qed.

(** X11. The node comparator gives the same answer with its arguments
    swapped, and a node always equals itself. *)
Theorem compare_node_properties_symmetric (node1 node2 : Node) :
  compare_node_properties node1 node2 = compare_node_properties node2 node1
  ∧ compare_node_properties node1 node1 = true.
Proof.
  split; [|apply compare_node_properties_refl].
  unfold compare_node_properties.
  rewrite (String.eqb_sym (node_type node2)).
  destruct (String.eqb_spec (node_type node1) (node_type node2)) as [Htype|]; [|done].
  cbn. rewrite <- Htype.
  rewrite (same_if_both_comm Qlist_eqb (node_color node2)) by apply Qlist_eqb_comm.
  rewrite (same_if_both_comm Bool.eqb (node_hide node2)) by apply Bool_eqb_sym.
  rewrite (inputs_loop_comm (node_inputs node2)).
  rewrite (same_if_both_comm _ (node_image node2))
    by (intros x y; apply bool_decide_ext; split; congruence).
  by rewrite (same_if_both_comm String.eqb (node_interpolation node2))
    by apply String.eqb_sym.
Qed.

Lemma node_key_eqb_refl k : node_key_eqb k k = true.
Proof. exact (link_end_eqb_refl k). Qed.

Lemma node_key_eqb_sym k1 k2 : node_key_eqb k1 k2 = true → node_key_eqb k2 k1 = true.
Proof. exact (link_end_eqb_sym k1 k2). Qed.

Lemma dict_get_None key d :
  dict_get key d = None ↔ ∀ kv, kv ∈ d → node_key_eqb kv.1 key = false.
Proof.
  unfold dict_get. split.
  - intros Hnone kv Hin%list_elem_of_In.
    destruct (find _ d) eqn:Hfind; [done|].
    by apply (find_none _ _ Hfind kv).
  - intros Hall. destruct (find _ d) as [kv|] eqn:Hfind; [|done].
    apply find_some in Hfind as [Hin%list_elem_of_In Heq].
    by rewrite (Hall kv Hin) in Heq.
Qed.

Lemma dict_get_Some key d node :
  dict_get key d = Some node →
  ∃ key', (key', node) ∈ d ∧ node_key_eqb key' key = true.
Proof.
  unfold dict_get. destruct (find _ d) as [[key' node']|] eqn:Hfind; [|done].
  intros [= <-]. apply find_some in Hfind as [Hin%list_elem_of_In Heq].
  by exists key'.
Qed.

Lemma index_nodes_Some nodes acc d :
  index_nodes nodes acc = Some d →
  d = acc ++ indexed nodes
  ∧ keys_distinct nodes
  ∧ ∀ kv node, kv ∈ acc → node ∈ nodes → node_key_eqb kv.1 (key_of node) = false.
Proof.
  revert acc. induction nodes as [|node rest IH]; intros acc Hrun; cbn in Hrun.
  - injection Hrun as <-. split_and!.
    + by rewrite app_nil_r.
    + by intros i j n1 n2 _ Hi.
    + intros kv n _ Hn. by apply elem_of_nil in Hn.
  - destruct (dict_get (key_of node) acc) eqn:Hget; [done|]. cbn in Hrun.
    destruct (IH _ Hrun) as (-> & Hdistinct & Hfresh).
    pose proof (proj1 (dict_get_None _ _) Hget) as Hnew.
    split_and!.
    + by rewrite <- app_assoc.
    + intros [|i] [|j] n1 n2 Hne Hi Hj; cbn in Hi, Hj; [done| | |].
      * injection Hi as <-. apply (Hfresh (key_of node, node) n2).
        { apply elem_of_app. right. by left. }
        by eapply list_elem_of_lookup_2.
      * injection Hj as <-. apply not_true_iff_false. intros Heq%node_key_eqb_sym.
        assert (node_key_eqb (key_of node) (key_of n1) = false) as Hf; [|congruence].
        apply (Hfresh (key_of node, node) n1).
        { apply elem_of_app. right. by left. }
        by eapply list_elem_of_lookup_2.
      * apply (Hdistinct i j); [lia|done|done].
    + intros kv n Hkv [->|Hn]%elem_of_cons; [by apply Hnew|].
      apply Hfresh; [|done]. apply elem_of_app. by left.
Qed.

Lemma index_nodes_distinct nodes acc :
  keys_distinct nodes →
  (∀ kv node, kv ∈ acc → node ∈ nodes → node_key_eqb kv.1 (key_of node) = false) →
  index_nodes nodes acc = Some (acc ++ indexed nodes).
Proof.
  revert acc. induction nodes as [|node rest IH]; intros acc Hdistinct Hfresh; cbn.
  - by rewrite app_nil_r.
  - assert (dict_get (key_of node) acc = None) as ->.
    { apply dict_get_None. intros kv Hkv. apply Hfresh; [done|by left]. }
    cbn. rewrite IH.
    + by rewrite <- app_assoc.
    + intros i j n1 n2 Hne Hi Hj. apply (Hdistinct (S i) (S j)); [lia|done|done].
    + intros kv n [Hkv | ->%list_elem_of_singleton]%elem_of_app Hn.
      * apply Hfresh; [done|by right].
      * apply list_elem_of_lookup in Hn as [j Hj]. cbn.
        apply (Hdistinct 0 (S j)); [lia|done|done].
Qed.

Lemma set_eqb_refl links : set_eqb (link_set links) (link_set links) = true.
Proof.
  apply set_eqb_link_set. split; intros l Hl; exists l; split; try done;
    apply link_key_eqb_same_ends, link_key_eqb_refl.
Qed.

(** X12. The graph comparator fails closed on an ambiguous key: two graphs
    can only compare equal when no two nodes of either share a matching
    key (type, position, name), and a graph compares equal to itself
    exactly when no two of its nodes share one. *)
Theorem graph_equals_itself_iff_keys_distinct (t1 t2 : NodeTree) :
  (compare_node_trees (Some t1) (Some t2) = true →
   keys_distinct (tree_nodes t1) ∧ keys_distinct (tree_nodes t2))
  ∧ (compare_node_trees (Some t1) (Some t1) = true ↔ keys_distinct (tree_nodes t1)).
Proof.
  assert (∀ ta tb, compare_node_trees (Some ta) (Some tb) = true →
                   keys_distinct (tree_nodes ta) ∧ keys_distinct (tree_nodes tb))
    as Hboth.
  { intros ta tb. unfold compare_node_trees.
    destruct (negb _); [done|]. destruct (negb _); [done|].
    destruct (index_nodes (tree_nodes ta) []) as [nodes1|] eqn:H1; [|done].
    destruct (index_nodes (tree_nodes tb) []) as [nodes2|] eqn:H2; [|done].
    intros _. apply index_nodes_Some in H1 as (_ & ? & _).
    by apply index_nodes_Some in H2 as (_ & ? & _). }
  split; [apply Hboth|]. split; [by intros [? _]%Hboth|].
  intros Hdistinct. unfold compare_node_trees. rewrite !Nat.eqb_refl.
  cbn [negb]. rewrite (index_nodes_distinct _ [] Hdistinct)
    by (intros kv n Hkv; by apply elem_of_nil in Hkv).
  rewrite app_nil_l, set_eqb_refl.
  match goal with
  | |- (if forallb ?f ?l then _ else _) = _ =>
      assert (forallb f l = true) as ->; [|done]
  end.
  apply forallb_forall. intros [key node1] Hin%list_elem_of_In.
  apply list_elem_of_fmap in Hin as (n & [= -> ->] & Hn).
  apply list_elem_of_lookup in Hn as [i Hi].
  destruct (dict_get (key_of n) (indexed (tree_nodes t1))) as [node2|] eqn:Hget.
  - apply dict_get_Some in Hget as (key' & Hin & Heq).
    apply list_elem_of_fmap in Hin as (n' & [= -> ->] & Hn').
    apply list_elem_of_lookup in Hn' as [j Hj].
    destruct (decide (j = i)) as [->|Hne].
    + rewrite Hi in Hj. injection Hj as <-.
      apply compare_node_properties_refl.
    + by rewrite (Hdistinct j i n' n Hne Hj Hi) in Heq.
  - rewrite dict_get_None in Hget.
    assert (node_key_eqb (key_of n) (key_of n) = false) as Hf;
      [|by rewrite node_key_eqb_refl in Hf].
    apply (Hget (key_of n, n)). apply list_elem_of_fmap. exists n. split; [done|].
    by eapply list_elem_of_lookup_2.
Qed.

Lemma graph_equals_itself_iff_keys_distinct_witness :
  (keys_distinct (tree_nodes tree_first) ∧ keys_distinct (tree_nodes tree_second))
  ∧ compare_node_trees (Some twin_tree) (Some twin_tree) = false.
Proof.
  split.
  - apply (graph_equals_itself_iff_keys_distinct tree_first tree_second).
    vm_compute. reflexivity.
  - destruct (compare_node_trees (Some twin_tree) (Some twin_tree)) eqn:Hrun; [|done].
    apply (graph_equals_itself_iff_keys_distinct twin_tree twin_tree) in Hrun
      as [Hdistinct _].
    specialize (Hdistinct 0 1 output_node output_node).
    rewrite <- Hdistinct; [|lia|reflexivity|reflexivity]. vm_compute. reflexivity.
Defined.

(** * Further properties of the whole run *)

Section WholeRun.

Variable scene : material -> Attrs.

(** What one turn of the object loop does to the state of the run. *)
Lemma process_object_effect st obj :
  processed_objects (process_object scene st obj)
  = processed_objects st + (if decide (obj_type obj = "MESH") then 1 else 0)
  ∧ (∀ key, (obj_type obj = "MESH" → obj_data obj ≠ key) →
            meshes (host (process_object scene st obj)) key = meshes (host st) key)
  ∧ ∃ names,
      journal (host (process_object scene st obj))
      = journal (host st) ++ (names ≫= edit_block)
      ∧ names `sublist_of` (if decide (obj_type obj = "MESH") then [obj_name obj] else [])
      ∧ removed_count st + length names ≤ removed_count (process_object scene st obj)
      ∧ (names = [] → removed_count (process_object scene st obj) = removed_count st).
Proof.
  unfold process_object.
  destruct (decide (obj_type obj = "MESH")) as [Hmesh|Hother].
  - apply String.eqb_eq in Hmesh as Heqb. rewrite Heqb. cbn [negb].
    destruct (process_mesh scene (meshes (host st) (obj_data obj)))
      as [|mesh' removed] eqn:Hrun; cbn.
    + split_and!; [lia|done|]. exists []. cbn. rewrite app_nil_r.
      split_and!; [done|apply sublist_nil_l|lia|done].
    + apply rewritten_counts in Hrun as (Hpos & _).
      split_and!; [lia| |].
      * intros key Hkey. apply fn_lookup_insert_ne. by apply Hkey.
      * exists [obj_name obj]. cbn. split_and!; [done|done|lia|done].
  - apply String.eqb_neq in Hother as Heqb. rewrite Heqb. cbn [negb].
    split_and!; [lia|done|]. exists []. cbn. rewrite app_nil_r.
    split_and!; [done|done|lia|done].
Qed.

Lemma foldl_process_object_effect selected st :
  processed_objects (foldl (process_object scene) st selected)
  = processed_objects st
    + length (filter (fun obj => obj_type obj = "MESH") selected)
  ∧ (∀ key, (∀ obj, obj ∈ selected → obj_type obj = "MESH" → obj_data obj ≠ key) →
            meshes (host (foldl (process_object scene) st selected)) key
            = meshes (host st) key)
  ∧ ∃ names,
      journal (host (foldl (process_object scene) st selected))
      = journal (host st) ++ (names ≫= edit_block)
      ∧ names `sublist_of`
          (obj_name <$> filter (fun obj => obj_type obj = "MESH") selected)
      ∧ removed_count st + length names
        ≤ removed_count (foldl (process_object scene) st selected)
      ∧ (names = [] →
         removed_count (foldl (process_object scene) st selected) = removed_count st).
Proof.
  revert st. induction selected as [|obj rest IH]; intros st.
  - cbn. split_and!; [lia|done|]. exists []. cbn. rewrite app_nil_r.
    split_and!; [done|done|lia|done].
  - cbn [foldl].
    destruct (process_object_effect st obj)
      as (Hcount & Hframe & names1 & Hjournal1 & Hsub1 & Hrem1 & Hnone1).
    destruct (IH (process_object scene st obj))
      as (Hcount' & Hframe' & names2 & Hjournal2 & Hsub2 & Hrem2 & Hnone2).
    rewrite filter_cons.
    split_and!.
    + rewrite Hcount', Hcount.
      destruct (decide (obj_type obj = "MESH")); cbn [length]; lia.
    + intros key Hkey. rewrite Hframe', Hframe; [done| |].
      * intros Hm. apply Hkey; [by left|done].
      * intros o Ho. apply Hkey. by right.
    + exists (names1 ++ names2). split_and!.
      * rewrite Hjournal2, Hjournal1, bind_app. by rewrite <- app_assoc.
      * destruct (decide (obj_type obj = "MESH")).
        -- rewrite fmap_cons. by apply (sublist_app _ [obj_name obj]).
        -- apply sublist_nil_r in Hsub1 as ->. done.
      * rewrite length_app. lia.
      * intros [-> ->]%app_eq_nil. rewrite Hnone2, Hnone1; done.
Qed.

End WholeRun.

Lemma filter_mesh_nil (selected : list Object) :
  filter (fun obj => obj_type obj = "MESH") selected = []
  ↔ ∀ obj, obj ∈ selected → obj_type obj ≠ "MESH".
Proof.
  split.
  - intros Hnil obj Hin Hmesh.
    assert (obj ∈ filter (fun obj => obj_type obj = "MESH") selected) as Hf
      by by apply list_elem_of_filter.
    rewrite Hnil in Hf. by apply elem_of_nil in Hf.
  - intros Hnone. induction selected as [|obj rest IH]; [done|].
    rewrite filter_cons, decide_False by (apply Hnone; by left).
    apply IH. intros o Ho. apply Hnone. by right.
Qed.

(** X13. The run is [FINISHED] exactly when a mesh object is selected and
    [CANCELLED] otherwise; [processed_objects] ends as the number of
    selected mesh objects; a cancelled run changes no mesh and removes
    nothing. *)
Theorem execute_status_and_counters scene (selected : list Object) (blender : Blender) :
  ((execute scene selected blender).1 = FINISHED
   ↔ ∃ obj, obj ∈ selected ∧ obj_type obj = "MESH")
  ∧ processed_objects (execute scene selected blender).2
    = length (filter (fun obj => obj_type obj = "MESH") selected)
  ∧ ((execute scene selected blender).1 = CANCELLED →
     meshes (host (execute scene selected blender).2) = meshes blender
     ∧ removed_count (execute scene selected blender).2 = 0).
Proof.
  unfold execute. destruct selected as [|first rest] eqn:Hsel.
  { cbn. split_and!; [|done|done]. split; [done|].
    intros (obj & Hin & _). by apply elem_of_nil in Hin. }
  rewrite <- Hsel. clear Hsel first rest.
  destruct (filter (fun obj => obj_type obj = "MESH") selected) as [|m ms] eqn:Hf.
  - cbn. split_and!; [|done|done]. split; [done|].
    intros (obj & Hin & Hmesh). exfalso.
    by apply (proj1 (filter_mesh_nil selected) Hf obj).
  - rewrite <- Hf. cbn [fst snd]. split_and!; [|by rewrite
      (proj1 (foldl_process_object_effect scene selected _))|done].
    split; [|done]. intros _. exists m.
    assert (m ∈ filter (fun obj => obj_type obj = "MESH") selected) as Hin
      by (rewrite Hf; left).
    by apply list_elem_of_filter in Hin as [? ?].
Qed.

(** X14. Whenever something is selected, all that the run adds to the
    journal of host calls is one block per rewritten object: make it
    active, update the view layer, enter edit mode, return to object mode.
    The blocks follow the order of the selected mesh objects, there are no
    more blocks than slots removed, and there is none exactly when no slot
    was removed. *)
Theorem execute_journal_is_edit_blocks scene (selected : list Object)
    (blender : Blender) :
  poll selected = true →
  ∃ names,
    journal (host (execute scene selected blender).2)
    = journal blender ++ (names ≫= edit_block)
    ∧ names `sublist_of`
        (obj_name <$> filter (fun obj => obj_type obj = "MESH") selected)
    ∧ length names ≤ removed_count (execute scene selected blender).2
    ∧ (names = [] ↔ removed_count (execute scene selected blender).2 = 0).
Proof.
  intros Hpoll. unfold execute.
  destruct selected as [|first rest] eqn:Hsel; [done|].
  rewrite <- Hsel. clear Hpoll Hsel first rest.
  destruct (filter (fun obj => obj_type obj = "MESH") selected) as [|m ms] eqn:Hf.
  - exists []. cbn. rewrite app_nil_r. split_and!; [done|done|lia|done].
  - rewrite <- Hf. cbn [snd].
    destruct (foldl_process_object_effect scene selected
                {| host := blender; removed_count := 0; processed_objects := 0 |})
      as (_ & _ & names & Hjournal & Hsub & Hrem & Hnone).
    exists names. cbn in Hjournal, Hrem, Hnone.
    split_and!; [done|done|lia|]. split; [done|].
    intros Hzero. destruct names; [done|]. cbn in Hrem. lia.
Qed.

Lemma execute_journal_is_edit_blocks_witness :
  ∃ names,
    journal (host (execute pairs_scene [light; cube; cube_copy] shared_host).2)
    = journal shared_host ++ (names ≫= edit_block)
    ∧ names `sublist_of`
        (obj_name <$> filter (fun obj => obj_type obj = "MESH")
                        [light; cube; cube_copy])
    ∧ length names
      ≤ removed_count (execute pairs_scene [light; cube; cube_copy] shared_host).2
    ∧ (names = []
       ↔ removed_count (execute pairs_scene [light; cube; cube_copy] shared_host).2
         = 0).
Proof. apply execute_journal_is_edit_blocks. reflexivity. Defined.

(** X15. The run leaves alone every mesh that is not the data of a
    selected mesh object. *)
Theorem execute_touches_selected_meshes_only scene (selected : list Object)
    (blender : Blender) (key : nat) :
  (∀ obj, obj ∈ selected → obj_type obj = "MESH" → obj_data obj ≠ key) →
  meshes (host (execute scene selected blender).2) key = meshes blender key.
Proof.
  intros Hkey. unfold execute.
  destruct selected as [|first rest] eqn:Hsel; [done|].
  rewrite <- Hsel in *. clear Hsel first rest.
  destruct (filter (fun obj => obj_type obj = "MESH") selected); [done|].
  cbn [snd].
  by rewrite (proj1 (proj2 (foldl_process_object_effect scene selected _))).
Qed.

Lemma execute_touches_selected_meshes_only_witness :
  meshes (host (execute pairs_scene [light; cube] shared_host).2) 1
  = meshes shared_host 1.
Proof.
  apply execute_touches_selected_meshes_only.
  intros obj Hobj Hmesh.
  repeat (apply elem_of_cons in Hobj as [->|Hobj]; [try done|]).
  by apply elem_of_nil in Hobj.
Defined.

Lemma process_object_Skipped scene st obj :
  obj_type obj = "MESH" →
  process_mesh scene (meshes (host st) (obj_data obj)) = Skipped →
  process_object scene st obj
  = {| host := host st; removed_count := removed_count st;
       processed_objects := S (processed_objects st) |}.
Proof.
  intros Hmesh%String.eqb_eq Hrun. unfold process_object.
  by rewrite Hmesh, Hrun.
Qed.

Lemma process_object_then_Skipped scene st obj :
  obj_type obj = "MESH" →
  NoDup (omap id (mesh_materials (meshes (host st) (obj_data obj)))) →
  process_mesh scene
    (meshes (host (process_object scene st obj)) (obj_data obj)) = Skipped.
Proof.
  intros Hmesh%String.eqb_eq Hnd. unfold process_object. rewrite Hmesh. cbn [negb].
  destruct (process_mesh scene (meshes (host st) (obj_data obj)))
    as [|mesh' removed] eqn:Hrun; cbn.
  - exact Hrun.
  - rewrite fn_lookup_insert. by eapply rerun_skipped.
Qed.

(** X16. Two selected objects that share one mesh: when no material sits
    in two slots of that mesh, the second object finds the mesh already
    rewritten and adds nothing, so the host and the number of removed
    slots end as if only the first object had been selected. *)
Theorem shared_mesh_is_rewritten_once scene (obj1 obj2 : Object) (blender : Blender) :
  obj_type obj1 = "MESH" → obj_type obj2 = "MESH" →
  obj_data obj1 = obj_data obj2 →
  NoDup (omap id (mesh_materials (meshes blender (obj_data obj1)))) →
  host (execute scene [obj1; obj2] blender).2
  = host (execute scene [obj1] blender).2
  ∧ removed_count (execute scene [obj1; obj2] blender).2
    = removed_count (execute scene [obj1] blender).2.
Proof.
  intros Hm1 Hm2 Hdata Hnd. unfold execute.
  rewrite !filter_cons, !decide_True by done. cbn [foldl snd].
  rewrite (process_object_Skipped scene _ obj2 Hm2); [done|].
  rewrite <- Hdata. by apply process_object_then_Skipped.
Qed.

Lemma shared_mesh_is_rewritten_once_witness :
  host (execute pairs_scene [cube; cube_copy] shared_host).2
  = host (execute pairs_scene [cube] shared_host).2
  ∧ removed_count (execute pairs_scene [cube; cube_copy] shared_host).2
    = removed_count (execute pairs_scene [cube] shared_host).2.
Proof.
  apply shared_mesh_is_rewritten_once; try reflexivity.
  apply (bool_decide_unpack _). vm_compute. exact I.
Defined.

(** * The canonical slot comes first *)

Section FirstOccurrence.

Variable scene : material -> Attrs.

(** [before] holds the materials whose turn has passed, [scanned] those
    among them that were compared with everything after them. *)
Lemma group_loop_first (before : list material) materials d processed
    (scanned : list material) :
  grouped scene d processed →
  (∀ x, x ∈ before → x ∈ processed ∨ x ∈ scanned) →
  (∀ x y, x ∈ scanned → y ∈ materials → y ∉ processed →
          compare_material_properties scene (Some x) (Some y) = false) →
  ∀ c ds,
    (c, ds) ∈ group_loop scene materials d processed →
    (c, ds) ∈ d
    ∨ ∃ l1 l2, materials = l1 ++ c :: l2
               ∧ ∀ x, x ∈ ds → x ∈ l2 ∧ (x ∉ before) ∧ x ∉ l1.
Proof.
  revert before d processed scanned.
  induction materials as [|mat1 later IH];
    intros before d p scanned Hg Hpassed Hahead c ds Hin; [by left|].
  rewrite group_loop_cons in Hin.
  assert (∀ d' (p' : gset material) (scanned' : list material),
            grouped scene d' p' →
            (∀ x, x ∈ before ++ [mat1] → x ∈ p' ∨ x ∈ scanned') →
            (∀ x y, x ∈ scanned' → y ∈ later → y ∉ p' →
                    compare_material_properties scene (Some x) (Some y) = false) →
            (c, ds) ∈ group_loop scene later d' p' →
            (c, ds) ∈ d'
            ∨ ∃ l1 l2, mat1 :: later = l1 ++ c :: l2
                       ∧ ∀ x, x ∈ ds → x ∈ l2 ∧ (x ∉ before) ∧ x ∉ l1) as IH'.
  { intros d' p' scanned' Hg' Hpassed' Hahead' Hin'.
    destruct (IH (before ++ [mat1]) d' p' scanned' Hg' Hpassed' Hahead' c ds Hin')
      as [?|(l1 & l2 & -> & Hds)]; [by left|right].
    exists (mat1 :: l1), l2. split; [done|]. intros x Hx.
    destruct (Hds x Hx) as (Hl2 & Hb & Hl1). split; [done|].
    rewrite not_elem_of_app, not_elem_of_cons in Hb. destruct Hb as (? & ? & _).
    split; [done|]. apply not_elem_of_cons. done. }
  destruct (decide (mat1 ∈ p)) as [Hmarked|Hnot].
  { apply (IH' d p scanned); try done.
    - intros x [Hx | ->%list_elem_of_singleton]%elem_of_app; [by apply Hpassed|by left].
    - intros x y Hx Hy. apply Hahead; [done|by right]. }
  destruct (scan_later_spec scene mat1 later [] p)
    as (found & Hscan & Hnd & Hsound & Hcomplete).
  rewrite Hscan in Hin. cbn [app] in Hin.
  assert (∀ x, x ∈ found → x ∉ before) as Hfresh.
  { intros x Hx Hb. destruct (Hsound x Hx) as (_ & Hxp & Hcmp).
    destruct (Hpassed x Hb) as [?|Hs]; [done|].
    rewrite compare_sym, (Hahead x mat1) in Hcmp; [done|done|by left|done]. }
  destruct found as [|y found'] eqn:Hfound.
  - apply (IH' d (list_to_set [] ∪ p) (mat1 :: scanned)) in Hin; try done.
    + eapply grouped_mono; [|done]. apply union_subseteq_r.
    + intros x [Hx | ->%list_elem_of_singleton]%elem_of_app; [|right; by left].
      destruct (Hpassed x Hx); [left; by apply elem_of_union_r|right; by right].
    + intros x z [->|Hx]%elem_of_cons Hz Hzp.
      * apply Hcomplete; [done|apply not_elem_of_nil|]. set_solver.
      * apply Hahead; [done|by right|set_solver].
  - rewrite <- Hfound in *.
    assert (grouped scene (dict_set mat1 found d)
              ({[mat1]} ∪ (list_to_set found ∪ p))) as Hg'.
    { apply grouped_add; try done; [by rewrite Hfound|].
      intros z Hz. by destruct (Hsound z Hz) as (_ & ? & ?). }
    apply (IH' _ _ (mat1 :: scanned)) in Hin as [Hin|?]; try done; [|by right| |].
    + apply elem_of_dict_set in Hin as [[= -> ->]|?]; [|by left].
      right. exists [], later. split; [done|]. intros x Hx.
      destruct (Hsound x Hx) as (? & _ & _).
      split_and!; [done|by apply Hfresh|apply not_elem_of_nil].
    + intros x [Hx | ->%list_elem_of_singleton]%elem_of_app; [|right; by left].
      destruct (Hpassed x Hx); [left; set_solver|right; by right].
    + intros x z [->|Hx]%elem_of_cons Hz Hzp.
      * apply Hcomplete; [done| |set_solver].
        intros Hzf. apply Hzp. apply elem_of_union_r, elem_of_union_l.
        by apply elem_of_list_to_set.
      * apply Hahead; [done|by right|set_solver].
Qed.

Lemma find_duplicate_materials_first materials c ds x :
  (c, ds) ∈ find_duplicate_materials scene materials → x ∈ ds →
  ∃ l1 l2, materials = l1 ++ c :: l2 ∧ x ∈ l2 ∧ x ∉ l1.
Proof.
  intros Hin Hx.
  assert (∀ z : material, z ∈ @nil material → z ∈ (∅ : gset material) ∨ z ∈ @nil material)
    as H1 by (intros z Hz; by apply elem_of_nil in Hz).
  assert (∀ z y : material, z ∈ @nil material → y ∈ materials →
            y ∉ (∅ : gset material) →
            compare_material_properties scene (Some z) (Some y) = false)
    as H2 by (intros z y Hz; by apply elem_of_nil in Hz).
  destruct (group_loop_first [] materials [] ∅ [] (grouped_empty scene) H1 H2 c ds Hin)
    as [Hnil|(l1 & l2 & -> & Hds)].
  - by apply elem_of_nil in Hnil.
  - exists l1, l2. destruct (Hds x Hx) as (? & _ & ?). done.
Qed.

End FirstOccurrence.

Lemma prefix_before_first {A} (c : A) (front back l1 l2 : list A) x :
  front ++ c :: back = l1 ++ c :: l2 → c ∉ front → x ∈ front → x ∈ l1.
Proof.
  revert l1. induction front as [|a front IH]; intros l1 Heq Hc Hx.
  { by apply elem_of_nil in Hx. }
  apply not_elem_of_cons in Hc as [Hne Hc].
  destruct l1 as [|b l1]; cbn in Heq; injection Heq as Hhead Htail; [done|].
  subst b. apply elem_of_cons in Hx as [->|Hx]; [by left|].
  right. by eapply IH.
Qed.

Lemma first_slot_order (slots : list (option material)) c d v k l1 l2 :
  omap id slots = l1 ++ c :: l2 → d ∉ l1 → d ≠ c →
  slot_index c slots = Some v → slot_index d slots = Some k → v < k.
Proof.
  intros Hsplit Hd Hne Hv Hk.
  pose proof (slot_index_Some _ _ _ Hv) as Hcv.
  pose proof (slot_index_Some _ _ _ Hk) as Hdk.
  destruct (decide (v < k)) as [|Hge]; [done|]. exfalso.
  assert (k < v) as Hlt.
  { destruct (decide (k = v)) as [->|]; [|lia]. congruence. }
  unfold slot_index in Hv. apply fmap_Some in Hv as ([j e] & Hfind & ->).
  apply list_find_Some in Hfind as (_ & _ & Hfirst). cbn in *.
  apply Hd.
  apply (prefix_before_first c (omap id (take j slots))
           (omap id (drop (S j) slots)) l1 l2).
  - rewrite <- Hsplit. rewrite <- (take_drop_middle slots j (Some c) Hcv) at 3.
    by rewrite omap_app.
  - intros (e' & [i Hi]%list_elem_of_lookup & He')%list_elem_of_omap.
    cbn in He'. subst e'. apply lookup_take_Some in Hi as [Hi Hij].
    by apply (Hfirst i (Some c)).
  - apply list_elem_of_omap. exists (Some d). split; [|done].
    apply list_elem_of_lookup. exists k. by rewrite lookup_take_lt.
Qed.

(** X17. The canonical slot comes first: every slot index that the
    operator rewrites is sent to a lower one. Slot 0 is therefore never
    removed, and the face rewrite never raises a material index. *)
Theorem duplicates_map_to_lower_slots scene (slots : list (option material)) :
  (∀ k v,
     (build_mapping slots (find_duplicate_materials scene (omap id slots))).1 !! k
     = Some v → v < k)
  ∧ (0 ∉ (build_mapping slots (find_duplicate_materials scene (omap id slots))).2)
  ∧ (∀ faces i f f',
       faces !! i = Some f →
       reassign (build_mapping slots
                   (find_duplicate_materials scene (omap id slots))).1 faces !! i
       = Some f' →
       f' ≤ f).
Proof.
  pose proof (build_mapping_mapped slots
                (find_duplicate_materials scene (omap id slots))) as [Hmap Hdom].
  assert (∀ k v,
     (build_mapping slots (find_duplicate_materials scene (omap id slots))).1 !! k
     = Some v → v < k) as Hlower.
  { intros k v Hk. destruct (Hmap k v Hk) as (c & ds & d & Hin & Hd & Hv & Hkd).
    destruct (find_duplicate_materials_first scene _ c ds d Hin Hd)
      as (l1 & l2 & Hsplit & _ & Hl1).
    eapply first_slot_order; try done.
    destruct (find_duplicate_materials_entries scene _ _ _ Hin) as [_ Hds].
    destruct (Hds d Hd) as [Hcmp _].
    intros ->. by rewrite compare_irrefl in Hcmp. }
  split; [done|]. split.
  - intros [v Hv]%Hdom. apply Hlower in Hv. lia.
  - intros faces i f f' Hf. unfold reassign. rewrite list_lookup_fmap, Hf. cbn.
    intros [= <-].
    destruct (_ !! f) as [v|] eqn:Hv; cbn; [|done]. apply Hlower in Hv. lia.
Qed.

(** * The order inside a duplicate list *)

Section ListOrder.

Variable scene : material -> Attrs.

Lemma scan_later_sublist mat1 later acc processed :
  ∃ found,
    (scan_later scene mat1 later acc processed).1 = acc ++ found
    ∧ found `sublist_of` later.
Proof.
  revert acc processed. induction later as [|mat2 rest IH]; intros acc p.
  - exists []. by rewrite app_nil_r.
  - rewrite scan_later_cons. destruct (decide (mat2 ∈ p)).
    { destruct (IH acc p) as (found & -> & Hsub).
      exists found. split; [done|]. by apply sublist_cons. }
    destruct (compare_material_properties scene (Some mat1) (Some mat2)).
    + destruct (IH (acc ++ [mat2]) ({[mat2]} ∪ p)) as (found & -> & Hsub).
      exists (mat2 :: found). split; [by rewrite <- app_assoc|].
      by apply sublist_skip.
    + destruct (IH acc p) as (found & -> & Hsub).
      exists found. split; [done|]. by apply sublist_cons.
Qed.

Lemma group_loop_in_order materials d processed c ds :
  (c, ds) ∈ group_loop scene materials d processed →
  (c, ds) ∈ d ∨ ∃ l1 l2, materials = l1 ++ c :: l2 ∧ ds `sublist_of` l2.
Proof.
  revert d processed.
  induction materials as [|mat1 later IH]; intros d p Hin; [by left|].
  rewrite group_loop_cons in Hin.
  assert (∀ d' p', (c, ds) ∈ group_loop scene later d' p' →
            (c, ds) ∈ d' ∨ ∃ l1 l2, mat1 :: later = l1 ++ c :: l2
                                     ∧ ds `sublist_of` l2) as IH'.
  { intros d' p' [?|(l1 & l2 & -> & ?)]%IH; [by left|right].
    by exists (mat1 :: l1), l2. }
  destruct (decide (mat1 ∈ p)); [by apply IH' in Hin|].
  destruct (scan_later_sublist mat1 later [] p) as (found & Hscan & Hsub).
  destruct (scan_later scene mat1 later [] p) as [mat_duplicates p'].
  cbn in Hscan. subst mat_duplicates.
  destruct found as [|x found'] eqn:Hfound.
  - by apply IH' in Hin.
  - apply IH' in Hin as [Hin|?]; [|by right].
    apply elem_of_dict_set in Hin as [[= -> ->]|?]; [|by left].
    right. by exists [], later.
Qed.

End ListOrder.

Lemma NoDup_join_elem {A} (ls : list (list A)) l :
  NoDup (mjoin ls) → l ∈ ls → NoDup l.
Proof.
  induction ls as [|l' ls IH]; intros Hnd Hin; [by apply elem_of_nil in Hin|].
  cbn in Hnd. apply NoDup_app in Hnd as (Hl' & _ & Hrest).
  apply elem_of_cons in Hin as [->|Hin]; [done|by apply IH].
Qed.

(** X18. Every duplicate list of the grouper is in input order: it lists,
    without repetition and in the order of the input, materials that come
    after an occurrence of its key. *)
Theorem duplicate_lists_keep_input_order scene (materials : list material) c ds :
  (c, ds) ∈ find_duplicate_materials scene materials →
  NoDup ds
  ∧ ∃ l1 l2, materials = l1 ++ c :: l2 ∧ ds `sublist_of` l2.
Proof.
  intros Hin. split.
  - destruct (find_duplicate_materials_grouped scene materials) as (p & _ & Hnd & _).
    apply (NoDup_join_elem _ _ Hnd).
    apply list_elem_of_fmap. by exists (c, ds).
  - apply group_loop_in_order in Hin as [Hin|?]; [|done].
    by apply elem_of_nil in Hin.
Qed.

Lemma duplicate_lists_keep_input_order_witness :
  NoDup [0; 2]
  ∧ ∃ l1 l2, [1; 0; 2] = l1 ++ 1 :: l2 ∧ [0; 2] `sublist_of` l2.
Proof.
  apply (duplicate_lists_keep_input_order drift_scene [1; 0; 2] 1 [0; 2]).
  assert (find_duplicate_materials drift_scene [1; 0; 2] = [(1, [0; 2])]) as ->
    by (vm_compute; reflexivity).
  left.
Defined.

Lemma duplicates_map_to_lower_slots_witness :
  0 < 1
  ∧ (∀ f', reassign (build_mapping (mesh_materials four_slots)
                       (find_duplicate_materials pairs_scene
                          (omap id (mesh_materials four_slots)))).1
             (mesh_faces four_slots) !! 3 = Some f' → f' ≤ 3) .
Proof.
  destruct (duplicates_map_to_lower_slots pairs_scene (mesh_materials four_slots))
    as (Hlower & _ & Hfaces).
  split.
  - apply (Hlower 1 0). vm_compute. reflexivity.
  - intros f'. apply (Hfaces (mesh_faces four_slots) 3 3 f'). reflexivity.
Defined.

(** * Faces stay within the slot list *)

(** X19. A face whose material index lies within the slot list before the
    operator rewrites the mesh has an index within the new slot list
    after it; and a face that does not point at a slot the operator
    rewrites shows exactly the slot entry it showed before. *)
Theorem faces_stay_in_range scene (mesh mesh' : Mesh) (removed : nat) k f :
  process_mesh scene mesh = Rewritten mesh' removed →
  mesh_faces mesh !! k = Some f →
  ∃ f', mesh_faces mesh' !! k = Some f'
        ∧ (f < length (mesh_materials mesh) → f' < length (mesh_materials mesh'))
        ∧ ((build_mapping (mesh_materials mesh)
              (find_duplicate_materials scene (omap id (mesh_materials mesh)))).1
           !! f = None →
           resolved mesh' f' = resolved mesh f).
Proof.
  unfold process_mesh. intros Hrun Hk.
  destruct (mesh_materials mesh) as [|slot slots] eqn:Hslots; [done|].
  rewrite <- Hslots in *. clear Hslots slot slots.
  destruct (length _ <? 2)%nat; [done|].
  destruct (find_duplicate_materials_grouped scene (omap id (mesh_materials mesh)))
    as (processed & Hgrouped).
  destruct (find_duplicate_materials scene _) as [|entry duplicates] eqn:Hdups; [done|].
  rewrite <- Hdups in *. clear Hdups entry duplicates.
  pose proof (build_mapping_mapped (mesh_materials mesh)
                (find_duplicate_materials scene (omap id (mesh_materials mesh))))
    as Hmapped.
  destruct (build_mapping _ _) as [material_mapping materials_to_remove].
  destruct (decide (material_mapping = ∅)); [done|].
  destruct (remove_slots _ _ 0) as [mesh1 removed1] eqn:Hremove.
  injection Hrun as -> ->.
  destruct (reassign_target scene _ _ _ _ _ f Hgrouped Hmapped) as [Hkept Hlook].
  destruct (remove_slots_resolved _ _ _ _ _ (sorted_reverse_sorted _)
              (sorted_reverse_NoDup _) Hremove k
              (default f (material_mapping !! f))) as (f' & Hk' & Hres).
  - cbn. unfold reassign. by rewrite list_lookup_fmap, Hk.
  - by rewrite elem_of_sorted_reverse.
  - exists f'. split; [done|]. unfold resolved in *. cbn in Hres. split.
    + intros Hin. apply lookup_lt_is_Some. rewrite Hres.
      apply lookup_lt_is_Some in Hin as [e He]. rewrite He in Hlook.
      destruct Hlook as [<- | (a & b & _ & -> & _)]; by eexists.
    + cbn. intros Hnone. by rewrite Hres, Hnone.
Qed.

Lemma faces_stay_in_range_witness :
  ∃ f', [0; 0; 1; 1; 0; 1] !! 2 = Some f'
        ∧ (2 < length (mesh_materials four_slots) → f' < length [Some 0; Some 2])
        ∧ ((build_mapping (mesh_materials four_slots)
              (find_duplicate_materials pairs_scene
                 (omap id (mesh_materials four_slots)))).1 !! 2 = None →
           resolved (mkMesh [Some 0; Some 2] [0; 0; 1; 1; 0; 1]) f'
           = resolved four_slots 2).
Proof.
  apply (faces_stay_in_range pairs_scene four_slots
           (mkMesh [Some 0; Some 2] [0; 0; 1; 1; 0; 1]) 2 2 2).
  - vm_compute. reflexivity.
  - reflexivity.
Defined.
